(** * Smart Contract Debugger: a shallow embedding of [src/app/page.tsx]

    The page component keeps its state in React hooks and delegates signing,
    ABI encoding and transport to the wallet library.  This development
    embeds the logic that remains: the catalog loader, the ABI function
    filter, the per-function form state, input coercion, result formatting,
    and the bookkeeping of [executeFunction] and [connectToContract].

    Conventions.
    - JavaScript strings are [string]s (bytes); case mapping and the regular
      expression classes [\w] and [\b] act on the ASCII range, every other
      byte is left alone and counts as a non-word character.
    - A JavaScript object used as a dictionary is a [gmap] with string keys
      holding its own properties.  A write creates an own property whatever
      the key; a read of a key the object does not own continues in
      [Object.prototype], whose members are listed in [objectPrototype].
    - External capabilities ([fetch], [JSON.parse], the contract proxy,
      wallet connection, [Date.now]) are parameters: every theorem holds for
      all of their behaviours. *)

From Stdlib Require Import ZArith String Ascii List Bool SpecFloat.
From Stdlib Require Import DecimalString DecimalPos.
From stdpp Require Import gmap strings list fin_maps.

Local Set Warnings "-register-all".
Local Open Scope string_scope.
Local Open Scope Z_scope.

(** ** JavaScript values and completions *)

Module JS.

(** The values that flow through the page: JSON documents, coerced call
    arguments and decoded call results.  A number is a binary64 float; an
    object is given by its own enumerable properties; a built-in function
    is given by its [name]. *)
Inductive Value : Type :=
| VUndefined
| VNull
| VBool (b : bool)
| VNumber (x : spec_float)
| VBigInt (n : Z)
| VString (s : string)
| VArray (items : list Value)
| VObject (props : list (string * Value))
| VFunction (name : string).

(** Outcome of evaluating an expression or awaiting a promise. *)
Inductive Completion (A : Type) : Type :=
| Normal (a : A)
| Throw (message : string).
Arguments Normal {A} a.
Arguments Throw {A} message.

Definition cbind {A B} (c : Completion A) (k : A → Completion B) : Completion B :=
  match c with
  | Normal a => k a
  | Throw m => Throw m
  end.

(** [Array.prototype.map] with a callback that may throw: the first
    exception aborts the traversal. *)
Fixpoint mapC {A B} (f : A → Completion B) (l : list A) : Completion (list B) :=
  match l with
  | [] => Normal []
  | x :: l' => cbind (f x) (λ y, cbind (mapC f l') (λ ys, Normal (y :: ys)))
  end.

(** ToBoolean. *)
Definition truthy (v : Value) : bool :=
  match v with
  | VUndefined | VNull => false
  | VBool b => b
  | VNumber x => match x with S754_zero _ | S754_nan => false | _ => true end
  | VBigInt n => negb (Z.eqb n 0)
  | VString s => negb (String.eqb s "")
  | VArray _ | VObject _ | VFunction _ => true
  end.

(** The number with integer value [z]. *)
Definition number (z : Z) : Value :=
  VNumber (binary_normalize 53 1024 z 0 false).

(** [typeof v === "bigint"] *)
Definition isBigInt (v : Value) : bool :=
  match v with VBigInt _ => true | _ => false end.

(** First binding of [k] in a property list. *)
Fixpoint assoc (k : string) (props : list (string * Value)) : option Value :=
  match props with
  | [] => None
  | (k', v) :: rest => if String.eqb k k' then Some v else assoc k rest
  end.

(** Property read [v.k] on a value obtained from [JSON.parse]: reading
    from [null] or [undefined] throws, a missing property is [undefined].
    The names read by the page ([address], [abi], [type], [name]) are not
    properties of primitives or of arrays, and not members of
    [Object.prototype]; of these a function has [name] only. *)
Definition getProp (v : Value) (k : string) : Completion Value :=
  match v with
  | VUndefined =>
      Throw ("Cannot read properties of undefined (reading '" +:+ k +:+ "')")
  | VNull =>
      Throw ("Cannot read properties of null (reading '" +:+ k +:+ "')")
  | VObject props => Normal (default VUndefined (assoc k props))
  | VFunction name => Normal (if String.eqb k "name" then VString name else VUndefined)
  | _ => Normal VUndefined
  end.

(** *** Plain objects and their prototype

    What a read [o[key]] yields when the plain object [o] has no own
    property [key]: the member of [Object.prototype] of that name
    (ECMAScript, Properties of the Object Prototype Object, and the
    additional properties of Annex B), and [undefined] for every other
    key.  [constructor] is the function [Object]; [__proto__] is an
    accessor that yields the prototype itself, an object with no
    enumerable property; every other member is a function named like its
    key. *)
Definition objectPrototype (key : string) : Value :=
  if String.eqb key "constructor" then VFunction "Object"
  else if String.eqb key "__proto__" then VObject []
  else if bool_decide (key ∈ ["hasOwnProperty"; "isPrototypeOf";
                              "propertyIsEnumerable"; "toLocaleString";
                              "toString"; "valueOf";
                              "__defineGetter__"; "__defineSetter__";
                              "__lookupGetter__"; "__lookupSetter__"])
  then VFunction key
  else VUndefined.

(** [n.toString()] for a bigint: the decimal numeral. *)
Definition bigintToString (n : Z) : string :=
  NilZero.string_of_int (Z.to_int n).

(** *** Strings *)

Definition isUpper (c : ascii) : bool :=
  (65 <=? nat_of_ascii c)%nat && (nat_of_ascii c <=? 90)%nat.
Definition isLower (c : ascii) : bool :=
  (97 <=? nat_of_ascii c)%nat && (nat_of_ascii c <=? 122)%nat.
Definition isDigit (c : ascii) : bool :=
  (48 <=? nat_of_ascii c)%nat && (nat_of_ascii c <=? 57)%nat.

Definition lowerChar (c : ascii) : ascii :=
  if isUpper c then ascii_of_nat (nat_of_ascii c + 32) else c.
Definition upperChar (c : ascii) : ascii :=
  if isLower c then ascii_of_nat (nat_of_ascii c - 32) else c.

Fixpoint mapChars (f : ascii → ascii) (s : string) : string :=
  match s with
  | EmptyString => EmptyString
  | String c s' => String (f c) (mapChars f s')
  end.

(** [s.toLowerCase()] *)
Definition toLowerCase (s : string) : string := mapChars lowerChar s.

(** [hay.includes(needle)] *)
Fixpoint includes (needle hay : string) : bool :=
  String.prefix needle hay ||
  match hay with
  | EmptyString => false
  | String _ hay' => includes needle hay'
  end.

(** [s.replace(pat, rep)] with a string pattern: only the first
    occurrence is replaced. *)
Fixpoint replaceFirst (pat rep s : string) : string :=
  if String.prefix pat s
  then rep +:+ String.substring (String.length pat)
                                (String.length s - String.length pat) s
  else match s with
       | EmptyString => EmptyString
       | String c s' => String c (replaceFirst pat rep s')
       end.

(** The class [\w]. *)
Definition isWordChar (c : ascii) : bool :=
  isUpper c || isLower c || isDigit c || Ascii.eqb c "_"%char.

(** [s.replace(/\b\w/g, l => l.toUpperCase())]; [prevWord] tells whether
    the character before the current position is a word character. *)
Fixpoint capitalizeFrom (prevWord : bool) (s : string) : string :=
  match s with
  | EmptyString => EmptyString
  | String c s' =>
      String (if isWordChar c && negb prevWord then upperChar c else c)
             (capitalizeFrom (isWordChar c) s')
  end.

End JS.
Export JS.

(** ** The wallet library's integer parser *)

Module Ethers.

(** The library is not part of the repository; its parser is modelled
    from its source and from the language standard. *)

(** White space and line terminators of the ASCII range; strings are
    bytes, and the white space characters beyond that range are not
    trimmed. *)
Definition isWhiteSpace (c : ascii) : bool :=
  let n := nat_of_ascii c in
  ((9 <=? n)%nat && (n <=? 13)%nat) || (n =? 32)%nat.

Fixpoint trimStart (s : string) : string :=
  match s with
  | EmptyString => EmptyString
  | String c s' => if isWhiteSpace c then trimStart s' else s
  end.

Fixpoint trimEnd (s : string) : string :=
  match s with
  | EmptyString => EmptyString
  | String c s' =>
      match trimEnd s' with
      | EmptyString => if isWhiteSpace c then EmptyString else String c EmptyString
      | t => String c t
      end
  end.

Definition trim (s : string) : string := trimEnd (trimStart s).

Definition digitValue (c : ascii) : option Z :=
  let n := Z.of_nat (nat_of_ascii c) in
  if isDigit c then Some (n - 48)
  else if (97 <=? n) && (n <=? 102) then Some (n - 87)
  else if (65 <=? n) && (n <=? 70) then Some (n - 55)
  else None.

Fixpoint parseDigitsFrom (radix acc : Z) (s : string) : option Z :=
  match s with
  | EmptyString => Some acc
  | String c s' =>
      match digitValue c with
      | Some d => if d <? radix then parseDigitsFrom radix (acc * radix + d) s'
                  else None
      | None => None
      end
  end.

Definition parseDigits (radix : Z) (s : string) : option Z :=
  match s with
  | EmptyString => None
  | _ => parseDigitsFrom radix 0 s
  end.

Definition parseDecimal (s : string) : option Z :=
  Z.of_uint <$> NilZero.uint_of_string s.

(** Model of [BigInt(s)] for a string argument (ECMAScript
    StringToBigInt): surrounding white space is ignored, the empty numeral
    is zero, a decimal numeral may carry a sign, and the prefixes [0x],
    [0o] and [0b] select another radix.  [None] stands for the
    SyntaxError. *)
Definition StringToBigInt (s : string) : option Z :=
  let t := trim s in
  match t with
  | EmptyString => Some 0
  | String "+" rest => parseDecimal rest
  | String "-" rest => Z.opp <$> parseDecimal rest
  | String "0" (String ("x" | "X") rest) => parseDigits 16 rest
  | String "0" (String ("o" | "O") rest) => parseDigits 8 rest
  | String "0" (String ("b" | "B") rest) => parseDigits 2 rest
  | _ => parseDecimal t
  end%char.

(** Model of the library's [getBigInt] on a string (ethers v6,
    [utils/maths.ts]): the empty string is rejected, one leading minus
    sign is peeled off before [BigInt] is called, and every failure is
    rethrown as an invalid-argument error.  The thrown message also
    carries engine and version details that are not modelled. *)
Definition getBigInt (value : string) : Completion Z :=
  let invalid := Throw "invalid BigNumberish string" in
  match value with
  | EmptyString => invalid
  | String c rest =>
      let second := match rest with String c' _ => Some c' | _ => None end in
      if Ascii.eqb c "-" && negb (bool_decide (second = Some "-"%char))
      then match StringToBigInt rest with
           | Some n => Normal (- n)
           | None => invalid
           end
      else match StringToBigInt value with
           | Some n => Normal n
           | None => invalid
           end
  end.

End Ethers.

(** ** Data model *)

(** One entry of [inputs] or [outputs] of an ABI function. *)
Module AbiInput.
Record t : Type := make {
  name : string;
  type : string;
  internalType : option string;
}.
End AbiInput.

(** [interface ContractFunction] *)
Module ContractFunction.
Record t : Type := make {
  name : string;
  type : string;
  stateMutability : string;
  inputs : list AbiInput.t;
  outputs : list AbiInput.t;
}.
End ContractFunction.

(** [interface FunctionResult]; an optional field that is absent or
    [undefined] is [None]. *)
Record FunctionResult : Type := {
  functionName : string;
  inputs : gmap string string;
  result : Value;
  error : option string;
  gasUsed : option string;
  transactionHash : option string;
  timestamp : Z;
}.

(** [interface ContractFile]; the loader stores whatever the descriptor
    holds under [address] and [abi]. *)
Record ContractFile : Type := {
  name : string;
  address : Value;
  abi : Value;
}.

Inductive Chain : Type := anvil | sepolia.
Inductive AuthMethod : Type := privateKeyAuth | browserWalletAuth.

(** Handles of the wallet library.  The page only stores them, tests them
    against [null] and passes them back to the library. *)
Record Signer : Type := { signerAddress : string }.
Record ContractInstance : Type := {
  target : Value;
  interface : Value;
  runner : Signer;
}.

(** A mined transaction: the receipt's [gasUsed] and its own enumerable
    properties. *)
Record Receipt : Type := {
  receipt_gasUsed : Z;
  receipt_props : list (string * Value);
}.

(** A submitted transaction: its [hash] and what [wait()] resolves to
    ([None] is the [null] receipt). *)
Record TransactionResponse : Type := {
  hash : string;
  wait : Completion (option Receipt);
}.

(** What [fetch] followed by [response.json()] can do for one file. *)
Inductive FetchOutcome : Type :=
| FetchRejects (message : string)
| ResponseNotOk
| JsonRejects (message : string)
| JsonResolves (contractData : Value).

(** The environment of one operation: the answers of every external
    capability the operation may consult.  [builtinInput h input] is the
    argument lines 308–322 compute for [input] when the [inputs] object is
    the built-in [h] (see [getInputs]): what a built-in function holds
    under a given name is the engine's business. *)
Record Env : Type := {
  now : Z;
  getBigInt : string → Completion Z;
  JSON_parse : string → Completion Value;
  staticCall : ContractInstance → string → list Value → Completion Value;
  sendTransaction :
    ContractInstance → string → list Value → Completion TransactionResponse;
  windowEthereum : bool;
  requestBrowserSigner : Completion (Signer * string);
  walletFromKey : string → list string → Completion (Signer * string);
  newContract : Value → Value → Signer → Completion ContractInstance;
  rpcUrl : Chain → list string;
  getContracts : Completion (list string);
  fetchContract : string → FetchOutcome;
  builtinInput : Value → AbiInput.t → Completion Value;
}.

(** ** Component state

    One field per [useState] cell of [SmartContractDebugger]. *)

Record State : Type := {
  privateKey : string;
  selectedChain : Chain;
  selectedContract : string;
  authMethod : AuthMethod;
  connectingWallet : bool;
  parsedAbi : list Value;
  contract : option ContractInstance;
  wallet : option Signer;
  walletAddress : string;
  isConnected : bool;
  connectionError : string;
  functionInputs : gmap string (gmap string string);
  functionResults : list FunctionResult;
  latestFunctionResults : gmap string FunctionResult;
  loadingFunctions : gset string;
  configExpanded : bool;
  expandedFunctions : gset string;
  contractFiles : list ContractFile;
  loadingContracts : bool;
  currentContractData : option (Value * Value);
  browserWalletAvailable : bool;
}.

(** The initial values passed to [useState]. *)
Definition initialState : State := {|
  privateKey := "";
  selectedChain := sepolia;
  selectedContract := "";
  authMethod := browserWalletAuth;
  connectingWallet := false;
  parsedAbi := [];
  contract := None;
  wallet := None;
  walletAddress := "";
  isConnected := false;
  connectionError := "";
  functionInputs := ∅;
  functionResults := [];
  latestFunctionResults := ∅;
  loadingFunctions := ∅;
  configExpanded := true;
  expandedFunctions := ∅;
  contractFiles := [];
  loadingContracts := false;
  currentContractData := None;
  browserWalletAvailable := false;
|}.

(** State setters.  React's [setX(f)] applies [f] to the current value of
    the cell; [setX(v)] is [setX(_ => v)]. *)
Definition setPrivateKey (f : string → string) (s : State) : State :=
  {| privateKey := f (privateKey s); selectedChain := selectedChain s;
    selectedContract := selectedContract s; authMethod := authMethod s;
    connectingWallet := connectingWallet s; parsedAbi := parsedAbi s;
    contract := contract s; wallet := wallet s;
    walletAddress := walletAddress s; isConnected := isConnected s;
    connectionError := connectionError s; functionInputs := functionInputs s;
    functionResults := functionResults s;
    latestFunctionResults := latestFunctionResults s;
    loadingFunctions := loadingFunctions s;
    configExpanded := configExpanded s;
    expandedFunctions := expandedFunctions s;
    contractFiles := contractFiles s; loadingContracts := loadingContracts s;
    currentContractData := currentContractData s;
    browserWalletAvailable := browserWalletAvailable s |}.
Definition setSelectedChain (f : Chain → Chain) (s : State) : State :=
  {| privateKey := privateKey s; selectedChain := f (selectedChain s);
    selectedContract := selectedContract s; authMethod := authMethod s;
    connectingWallet := connectingWallet s; parsedAbi := parsedAbi s;
    contract := contract s; wallet := wallet s;
    walletAddress := walletAddress s; isConnected := isConnected s;
    connectionError := connectionError s; functionInputs := functionInputs s;
    functionResults := functionResults s;
    latestFunctionResults := latestFunctionResults s;
    loadingFunctions := loadingFunctions s;
    configExpanded := configExpanded s;
    expandedFunctions := expandedFunctions s;
    contractFiles := contractFiles s; loadingContracts := loadingContracts s;
    currentContractData := currentContractData s;
    browserWalletAvailable := browserWalletAvailable s |}.
Definition setSelectedContract (f : string → string) (s : State) : State :=
  {| privateKey := privateKey s; selectedChain := selectedChain s;
    selectedContract := f (selectedContract s); authMethod := authMethod s;
    connectingWallet := connectingWallet s; parsedAbi := parsedAbi s;
    contract := contract s; wallet := wallet s;
    walletAddress := walletAddress s; isConnected := isConnected s;
    connectionError := connectionError s; functionInputs := functionInputs s;
    functionResults := functionResults s;
    latestFunctionResults := latestFunctionResults s;
    loadingFunctions := loadingFunctions s;
    configExpanded := configExpanded s;
    expandedFunctions := expandedFunctions s;
    contractFiles := contractFiles s; loadingContracts := loadingContracts s;
    currentContractData := currentContractData s;
    browserWalletAvailable := browserWalletAvailable s |}.
Definition setAuthMethod (f : AuthMethod → AuthMethod) (s : State) : State :=
  {| privateKey := privateKey s; selectedChain := selectedChain s;
    selectedContract := selectedContract s; authMethod := f (authMethod s);
    connectingWallet := connectingWallet s; parsedAbi := parsedAbi s;
    contract := contract s; wallet := wallet s;
    walletAddress := walletAddress s; isConnected := isConnected s;
    connectionError := connectionError s; functionInputs := functionInputs s;
    functionResults := functionResults s;
    latestFunctionResults := latestFunctionResults s;
    loadingFunctions := loadingFunctions s;
    configExpanded := configExpanded s;
    expandedFunctions := expandedFunctions s;
    contractFiles := contractFiles s; loadingContracts := loadingContracts s;
    currentContractData := currentContractData s;
    browserWalletAvailable := browserWalletAvailable s |}.
Definition setConnectingWallet (f : bool → bool) (s : State) : State :=
  {| privateKey := privateKey s; selectedChain := selectedChain s;
    selectedContract := selectedContract s; authMethod := authMethod s;
    connectingWallet := f (connectingWallet s); parsedAbi := parsedAbi s;
    contract := contract s; wallet := wallet s;
    walletAddress := walletAddress s; isConnected := isConnected s;
    connectionError := connectionError s; functionInputs := functionInputs s;
    functionResults := functionResults s;
    latestFunctionResults := latestFunctionResults s;
    loadingFunctions := loadingFunctions s;
    configExpanded := configExpanded s;
    expandedFunctions := expandedFunctions s;
    contractFiles := contractFiles s; loadingContracts := loadingContracts s;
    currentContractData := currentContractData s;
    browserWalletAvailable := browserWalletAvailable s |}.
Definition setParsedAbi (f : list Value → list Value) (s : State) : State :=
  {| privateKey := privateKey s; selectedChain := selectedChain s;
    selectedContract := selectedContract s; authMethod := authMethod s;
    connectingWallet := connectingWallet s; parsedAbi := f (parsedAbi s);
    contract := contract s; wallet := wallet s;
    walletAddress := walletAddress s; isConnected := isConnected s;
    connectionError := connectionError s; functionInputs := functionInputs s;
    functionResults := functionResults s;
    latestFunctionResults := latestFunctionResults s;
    loadingFunctions := loadingFunctions s;
    configExpanded := configExpanded s;
    expandedFunctions := expandedFunctions s;
    contractFiles := contractFiles s; loadingContracts := loadingContracts s;
    currentContractData := currentContractData s;
    browserWalletAvailable := browserWalletAvailable s |}.
Definition setContract (f : option ContractInstance → option ContractInstance) (s : State) : State :=
  {| privateKey := privateKey s; selectedChain := selectedChain s;
    selectedContract := selectedContract s; authMethod := authMethod s;
    connectingWallet := connectingWallet s; parsedAbi := parsedAbi s;
    contract := f (contract s); wallet := wallet s;
    walletAddress := walletAddress s; isConnected := isConnected s;
    connectionError := connectionError s; functionInputs := functionInputs s;
    functionResults := functionResults s;
    latestFunctionResults := latestFunctionResults s;
    loadingFunctions := loadingFunctions s;
    configExpanded := configExpanded s;
    expandedFunctions := expandedFunctions s;
    contractFiles := contractFiles s; loadingContracts := loadingContracts s;
    currentContractData := currentContractData s;
    browserWalletAvailable := browserWalletAvailable s |}.
Definition setWallet (f : option Signer → option Signer) (s : State) : State :=
  {| privateKey := privateKey s; selectedChain := selectedChain s;
    selectedContract := selectedContract s; authMethod := authMethod s;
    connectingWallet := connectingWallet s; parsedAbi := parsedAbi s;
    contract := contract s; wallet := f (wallet s);
    walletAddress := walletAddress s; isConnected := isConnected s;
    connectionError := connectionError s; functionInputs := functionInputs s;
    functionResults := functionResults s;
    latestFunctionResults := latestFunctionResults s;
    loadingFunctions := loadingFunctions s;
    configExpanded := configExpanded s;
    expandedFunctions := expandedFunctions s;
    contractFiles := contractFiles s; loadingContracts := loadingContracts s;
    currentContractData := currentContractData s;
    browserWalletAvailable := browserWalletAvailable s |}.
Definition setWalletAddress (f : string → string) (s : State) : State :=
  {| privateKey := privateKey s; selectedChain := selectedChain s;
    selectedContract := selectedContract s; authMethod := authMethod s;
    connectingWallet := connectingWallet s; parsedAbi := parsedAbi s;
    contract := contract s; wallet := wallet s;
    walletAddress := f (walletAddress s); isConnected := isConnected s;
    connectionError := connectionError s; functionInputs := functionInputs s;
    functionResults := functionResults s;
    latestFunctionResults := latestFunctionResults s;
    loadingFunctions := loadingFunctions s;
    configExpanded := configExpanded s;
    expandedFunctions := expandedFunctions s;
    contractFiles := contractFiles s; loadingContracts := loadingContracts s;
    currentContractData := currentContractData s;
    browserWalletAvailable := browserWalletAvailable s |}.
Definition setIsConnected (f : bool → bool) (s : State) : State :=
  {| privateKey := privateKey s; selectedChain := selectedChain s;
    selectedContract := selectedContract s; authMethod := authMethod s;
    connectingWallet := connectingWallet s; parsedAbi := parsedAbi s;
    contract := contract s; wallet := wallet s;
    walletAddress := walletAddress s; isConnected := f (isConnected s);
    connectionError := connectionError s; functionInputs := functionInputs s;
    functionResults := functionResults s;
    latestFunctionResults := latestFunctionResults s;
    loadingFunctions := loadingFunctions s;
    configExpanded := configExpanded s;
    expandedFunctions := expandedFunctions s;
    contractFiles := contractFiles s; loadingContracts := loadingContracts s;
    currentContractData := currentContractData s;
    browserWalletAvailable := browserWalletAvailable s |}.
Definition setConnectionError (f : string → string) (s : State) : State :=
  {| privateKey := privateKey s; selectedChain := selectedChain s;
    selectedContract := selectedContract s; authMethod := authMethod s;
    connectingWallet := connectingWallet s; parsedAbi := parsedAbi s;
    contract := contract s; wallet := wallet s;
    walletAddress := walletAddress s; isConnected := isConnected s;
    connectionError := f (connectionError s);
    functionInputs := functionInputs s; functionResults := functionResults s;
    latestFunctionResults := latestFunctionResults s;
    loadingFunctions := loadingFunctions s;
    configExpanded := configExpanded s;
    expandedFunctions := expandedFunctions s;
    contractFiles := contractFiles s; loadingContracts := loadingContracts s;
    currentContractData := currentContractData s;
    browserWalletAvailable := browserWalletAvailable s |}.
Definition setFunctionInputs (f : gmap string (gmap string string) → gmap string (gmap string string)) (s : State) : State :=
  {| privateKey := privateKey s; selectedChain := selectedChain s;
    selectedContract := selectedContract s; authMethod := authMethod s;
    connectingWallet := connectingWallet s; parsedAbi := parsedAbi s;
    contract := contract s; wallet := wallet s;
    walletAddress := walletAddress s; isConnected := isConnected s;
    connectionError := connectionError s;
    functionInputs := f (functionInputs s);
    functionResults := functionResults s;
    latestFunctionResults := latestFunctionResults s;
    loadingFunctions := loadingFunctions s;
    configExpanded := configExpanded s;
    expandedFunctions := expandedFunctions s;
    contractFiles := contractFiles s; loadingContracts := loadingContracts s;
    currentContractData := currentContractData s;
    browserWalletAvailable := browserWalletAvailable s |}.
Definition setFunctionResults (f : list FunctionResult → list FunctionResult) (s : State) : State :=
  {| privateKey := privateKey s; selectedChain := selectedChain s;
    selectedContract := selectedContract s; authMethod := authMethod s;
    connectingWallet := connectingWallet s; parsedAbi := parsedAbi s;
    contract := contract s; wallet := wallet s;
    walletAddress := walletAddress s; isConnected := isConnected s;
    connectionError := connectionError s; functionInputs := functionInputs s;
    functionResults := f (functionResults s);
    latestFunctionResults := latestFunctionResults s;
    loadingFunctions := loadingFunctions s;
    configExpanded := configExpanded s;
    expandedFunctions := expandedFunctions s;
    contractFiles := contractFiles s; loadingContracts := loadingContracts s;
    currentContractData := currentContractData s;
    browserWalletAvailable := browserWalletAvailable s |}.
Definition setLatestFunctionResults (f : gmap string FunctionResult → gmap string FunctionResult) (s : State) : State :=
  {| privateKey := privateKey s; selectedChain := selectedChain s;
    selectedContract := selectedContract s; authMethod := authMethod s;
    connectingWallet := connectingWallet s; parsedAbi := parsedAbi s;
    contract := contract s; wallet := wallet s;
    walletAddress := walletAddress s; isConnected := isConnected s;
    connectionError := connectionError s; functionInputs := functionInputs s;
    functionResults := functionResults s;
    latestFunctionResults := f (latestFunctionResults s);
    loadingFunctions := loadingFunctions s;
    configExpanded := configExpanded s;
    expandedFunctions := expandedFunctions s;
    contractFiles := contractFiles s; loadingContracts := loadingContracts s;
    currentContractData := currentContractData s;
    browserWalletAvailable := browserWalletAvailable s |}.
Definition setLoadingFunctions (f : gset string → gset string) (s : State) : State :=
  {| privateKey := privateKey s; selectedChain := selectedChain s;
    selectedContract := selectedContract s; authMethod := authMethod s;
    connectingWallet := connectingWallet s; parsedAbi := parsedAbi s;
    contract := contract s; wallet := wallet s;
    walletAddress := walletAddress s; isConnected := isConnected s;
    connectionError := connectionError s; functionInputs := functionInputs s;
    functionResults := functionResults s;
    latestFunctionResults := latestFunctionResults s;
    loadingFunctions := f (loadingFunctions s);
    configExpanded := configExpanded s;
    expandedFunctions := expandedFunctions s;
    contractFiles := contractFiles s; loadingContracts := loadingContracts s;
    currentContractData := currentContractData s;
    browserWalletAvailable := browserWalletAvailable s |}.
Definition setConfigExpanded (f : bool → bool) (s : State) : State :=
  {| privateKey := privateKey s; selectedChain := selectedChain s;
    selectedContract := selectedContract s; authMethod := authMethod s;
    connectingWallet := connectingWallet s; parsedAbi := parsedAbi s;
    contract := contract s; wallet := wallet s;
    walletAddress := walletAddress s; isConnected := isConnected s;
    connectionError := connectionError s; functionInputs := functionInputs s;
    functionResults := functionResults s;
    latestFunctionResults := latestFunctionResults s;
    loadingFunctions := loadingFunctions s;
    configExpanded := f (configExpanded s);
    expandedFunctions := expandedFunctions s;
    contractFiles := contractFiles s; loadingContracts := loadingContracts s;
    currentContractData := currentContractData s;
    browserWalletAvailable := browserWalletAvailable s |}.
Definition setExpandedFunctions (f : gset string → gset string) (s : State) : State :=
  {| privateKey := privateKey s; selectedChain := selectedChain s;
    selectedContract := selectedContract s; authMethod := authMethod s;
    connectingWallet := connectingWallet s; parsedAbi := parsedAbi s;
    contract := contract s; wallet := wallet s;
    walletAddress := walletAddress s; isConnected := isConnected s;
    connectionError := connectionError s; functionInputs := functionInputs s;
    functionResults := functionResults s;
    latestFunctionResults := latestFunctionResults s;
    loadingFunctions := loadingFunctions s;
    configExpanded := configExpanded s;
    expandedFunctions := f (expandedFunctions s);
    contractFiles := contractFiles s; loadingContracts := loadingContracts s;
    currentContractData := currentContractData s;
    browserWalletAvailable := browserWalletAvailable s |}.
Definition setContractFiles (f : list ContractFile → list ContractFile) (s : State) : State :=
  {| privateKey := privateKey s; selectedChain := selectedChain s;
    selectedContract := selectedContract s; authMethod := authMethod s;
    connectingWallet := connectingWallet s; parsedAbi := parsedAbi s;
    contract := contract s; wallet := wallet s;
    walletAddress := walletAddress s; isConnected := isConnected s;
    connectionError := connectionError s; functionInputs := functionInputs s;
    functionResults := functionResults s;
    latestFunctionResults := latestFunctionResults s;
    loadingFunctions := loadingFunctions s;
    configExpanded := configExpanded s;
    expandedFunctions := expandedFunctions s;
    contractFiles := f (contractFiles s);
    loadingContracts := loadingContracts s;
    currentContractData := currentContractData s;
    browserWalletAvailable := browserWalletAvailable s |}.
Definition setLoadingContracts (f : bool → bool) (s : State) : State :=
  {| privateKey := privateKey s; selectedChain := selectedChain s;
    selectedContract := selectedContract s; authMethod := authMethod s;
    connectingWallet := connectingWallet s; parsedAbi := parsedAbi s;
    contract := contract s; wallet := wallet s;
    walletAddress := walletAddress s; isConnected := isConnected s;
    connectionError := connectionError s; functionInputs := functionInputs s;
    functionResults := functionResults s;
    latestFunctionResults := latestFunctionResults s;
    loadingFunctions := loadingFunctions s;
    configExpanded := configExpanded s;
    expandedFunctions := expandedFunctions s;
    contractFiles := contractFiles s;
    loadingContracts := f (loadingContracts s);
    currentContractData := currentContractData s;
    browserWalletAvailable := browserWalletAvailable s |}.
Definition setCurrentContractData (f : option (Value * Value) → option (Value * Value)) (s : State) : State :=
  {| privateKey := privateKey s; selectedChain := selectedChain s;
    selectedContract := selectedContract s; authMethod := authMethod s;
    connectingWallet := connectingWallet s; parsedAbi := parsedAbi s;
    contract := contract s; wallet := wallet s;
    walletAddress := walletAddress s; isConnected := isConnected s;
    connectionError := connectionError s; functionInputs := functionInputs s;
    functionResults := functionResults s;
    latestFunctionResults := latestFunctionResults s;
    loadingFunctions := loadingFunctions s;
    configExpanded := configExpanded s;
    expandedFunctions := expandedFunctions s;
    contractFiles := contractFiles s; loadingContracts := loadingContracts s;
    currentContractData := f (currentContractData s);
    browserWalletAvailable := browserWalletAvailable s |}.
Definition setBrowserWalletAvailable (f : bool → bool) (s : State) : State :=
  {| privateKey := privateKey s; selectedChain := selectedChain s;
    selectedContract := selectedContract s; authMethod := authMethod s;
    connectingWallet := connectingWallet s; parsedAbi := parsedAbi s;
    contract := contract s; wallet := wallet s;
    walletAddress := walletAddress s; isConnected := isConnected s;
    connectionError := connectionError s; functionInputs := functionInputs s;
    functionResults := functionResults s;
    latestFunctionResults := latestFunctionResults s;
    loadingFunctions := loadingFunctions s;
    configExpanded := configExpanded s;
    expandedFunctions := expandedFunctions s;
    contractFiles := contractFiles s; loadingContracts := loadingContracts s;
    currentContractData := currentContractData s;
    browserWalletAvailable := f (browserWalletAvailable s) |}.

(** ** Operations

    An operation is a state transformer that may end in an exception; state
    updates made before the exception persist. *)

Definition M (A : Type) : Type := State → Completion A * State.

Definition ret {A} (a : A) : M A := λ s, (Normal a, s).
Definition throw {A} (message : string) : M A := λ s, (Throw message, s).
Definition bind {A B} (m : M A) (k : A → M B) : M B :=
  λ s, match m s with
       | (Normal a, s') => k a s'
       | (Throw message, s') => (Throw message, s')
       end.
Definition get : M State := λ s, (Normal s, s).
Definition update (f : State → State) : M unit := λ s, (Normal tt, f s).
Definition liftC {A} (c : Completion A) : M A := λ s, (c, s).

(** [try { body } catch (e) { handler(e.message) }] *)
Definition tryCatch {A} (body : M A) (handler : string → M A) : M A :=
  λ s, match body s with
       | (Normal a, s') => (Normal a, s')
       | (Throw message, s') => handler message s'
       end.

(** [try { body } finally { finalizer }] *)
Definition tryFinally {A} (body : M A) (finalizer : M unit) : M A :=
  λ s, match body s with
       | (c, s') =>
           match finalizer s' with
           | (Normal _, s'') => (c, s'')
           | (Throw message, s'') => (Throw message, s'')
           end
       end.

#[global] Instance M_ret : MRet M := @ret.
#[global] Instance M_bind : MBind M := λ A B k m, bind m k.

(** *** Form state (lines 289–297 and 306)

    [functionInputs] holds own properties only: the object literal of
    [handleInputChange] defines [functionName] and [inputName] as own
    properties, and a spread copies own enumerable properties (none for a
    built-in). *)

Definition handleInputChange (functionName inputName value : string) : M unit :=
  update (setFunctionInputs (λ prev,
    <[functionName := <[inputName := value]> (default ∅ (prev !! functionName))]> prev)).

(** What [functionInputs[functionName] || {}] evaluates to: the function's
    own record; for a function without one, the member of
    [Object.prototype] named like the function when there is one, and a
    fresh empty object otherwise. *)
Inductive Inputs : Type :=
| Record (own : gmap string string)
| Builtin (member : Value).

Definition getInputs (functionInputs : gmap string (gmap string string))
    (functionName : string) : Inputs :=
  match functionInputs !! functionName with
  | Some own => Record own
  | None =>
      if truthy (objectPrototype functionName)
      then Builtin (objectPrototype functionName)
      else Record ∅
  end.

(** [{ ...inputs }]: the own enumerable properties; a built-in has none.
    In the same way [{ ...functionInputs[functionName] }] is the function's
    own record, and empty without one. *)
Definition snapshot (inputs : Inputs) : gmap string string :=
  match inputs with
  | Record own => own
  | Builtin _ => ∅
  end.

(** *** Coercion (lines 307–323) *)

(** What [inputs[name] || ""] evaluates to on a plain object: the own
    string, the empty string when it is missing, or the truthy member the
    object inherits under that name. *)
Inductive FormValue : Type :=
| Text (s : string)
| Inherited (member : Value).

Definition lookupValue (inputs : gmap string string) (name : string) : FormValue :=
  match inputs !! name with
  | Some s => Text s
  | None =>
      if truthy (objectPrototype name)
      then Inherited (objectPrototype name)
      else Text ""
  end.

(** An inherited member is a function or the prototype object: the
    library's [getBigInt] rejects it, it has no [toLowerCase], and
    [JSON.parse] rejects its string conversion (a function's source text,
    or [[object Object]]). *)
Definition coerceInput (env : Env) (inputs : gmap string string)
    (input : AbiInput.t) : Completion Value :=
  let value := lookupValue inputs (AbiInput.name input) in
  if includes "uint" (AbiInput.type input) || includes "int" (AbiInput.type input)
  then
    match value with
    | Text value =>
        if negb (String.eqb value "")
        then cbind (getBigInt env value) (λ n, Normal (VBigInt n))
        else Normal (VBigInt 0)
    | Inherited _ => Throw "invalid BigNumberish value"
    end
  else if String.eqb (AbiInput.type input) "bool"
  then
    match value with
    | Text value => Normal (VBool (String.eqb (toLowerCase value) "true"))
    | Inherited _ => Throw "value.toLowerCase is not a function"
    end
  else if includes "[]" (AbiInput.type input)
  then
    match value with
    | Text value =>
        match JSON_parse env (if String.eqb value "" then "[]" else value) with
        | Normal v => Normal v
        | Throw _ => Normal (VArray [])
        end
    | Inherited _ => Normal (VArray [])
    end
  else
    match value with
    | Text value => Normal (VString value)
    | Inherited member => Normal member
    end.

(** The callback of [func.inputs.map] (lines 307–323) for either kind of
    [inputs] object. *)
Definition coerceArgument (env : Env) (inputs : Inputs)
    (input : AbiInput.t) : Completion Value :=
  match inputs with
  | Record own => coerceInput env own input
  | Builtin member => builtinInput env member input
  end.

Definition coerceInputs (env : Env) (inputs : Inputs)
    (func : ContractFunction.t) : Completion (list Value) :=
  mapC (coerceArgument env inputs) (ContractFunction.inputs func).

(** *** Dispatch (lines 325–339) *)

Definition isReadOnly (func : ContractFunction.t) : bool :=
  String.eqb (ContractFunction.stateMutability func) "view"
  || String.eqb (ContractFunction.stateMutability func) "pure".

(** The awaited part of an invocation: [result], [gasUsed] and
    [transactionHash] as they stand when formatting starts. *)
Definition dispatch (env : Env) (c : ContractInstance)
    (func : ContractFunction.t) (args : list Value)
    : Completion (Value * option string * option string) :=
  if isReadOnly func then
    cbind (staticCall env c (ContractFunction.name func) args)
      (λ result, Normal (result, None, None))
  else
    cbind (sendTransaction env c (ContractFunction.name func) args) (λ tx,
    cbind (wait tx) (λ receipt,
      match receipt with
      | None => Throw "Cannot read properties of null (reading 'gasUsed')"
      | Some r =>
          Normal (VObject (receipt_props r),
                  Some (bigintToString (receipt_gasUsed r)),
                  Some (hash tx))
      end)).

(** *** Formatting (lines 341–351) *)

(** [typeof item === "bigint" ? item.toString() : item] *)
Definition formatItem (item : Value) : Value :=
  match item with
  | VBigInt n => VString (bigintToString n)
  | _ => item
  end.

Definition formatResult (result : Value) : Value :=
  match result with
  | VBigInt n => VString (bigintToString n)
  | VArray items => VArray (map formatItem items)
  | VObject props => VObject (map (λ '(key, value), (key, formatItem value)) props)
  | _ => result
  end.

(** *** [executeFunction] (lines 299–390)

    [s0] is the render the handler closes over: [contract], [wallet] and
    [functionInputs] are read from it, every write goes through a setter. *)
Definition executeFunction (env : Env) (func : ContractFunction.t) : M unit :=
  s0 ← get;
  match contract s0, wallet s0 with
  | Some c, Some _ =>
      let functionName := ContractFunction.name func in
      update (setLoadingFunctions (λ prev, prev ∪ {[functionName]}));;
      tryFinally
        (tryCatch
           (let inputs := getInputs (functionInputs s0) functionName in
            args ← liftC (coerceInputs env inputs func);
            r ← liftC (dispatch env c func args);
            let '(result, gasUsed, transactionHash) := r in
            let functionResult :=
              {| functionName := functionName;
                 inputs := snapshot inputs;
                 result := formatResult result;
                 error := None;
                 gasUsed := gasUsed;
                 transactionHash := transactionHash;
                 timestamp := now env |} in
            update (setFunctionResults (λ prev, functionResult :: prev));;
            update (setLatestFunctionResults (λ prev,
                      <[functionName := functionResult]> prev)))
           (λ message,
            let functionResult :=
              {| functionName := functionName;
                 inputs := default ∅ (functionInputs s0 !! functionName);
                 result := VNull;
                 error := Some message;
                 gasUsed := None;
                 transactionHash := None;
                 timestamp := now env |} in
            update (setFunctionResults (λ prev, functionResult :: prev));;
            update (setLatestFunctionResults (λ prev,
                      <[functionName := functionResult]> prev))))
        (update (setLoadingFunctions (λ prev, prev ∖ {[functionName]})))
  | _, _ => ret tt
  end.

(** *** Catalog loader (lines 140–177) *)

(** [fileName.replace(".json", "").replace(/-/g, " ").replace(/\b\w/g, ...)] *)
Definition displayName (fileName : string) : string :=
  capitalizeFrom false
    (mapChars (λ c, if Ascii.eqb c "-" then " "%char else c)
       (replaceFirst ".json" "" fileName)).

(** What one iteration of the loop does with its file. *)
Inductive FileOutcome : Type :=
| Accepted (file : ContractFile)
| Skipped
| Warned (message : string).

Definition loadFile (env : Env) (fileName : string) : FileOutcome :=
  match fetchContract env fileName with
  | FetchRejects message => Warned message
  | ResponseNotOk => Skipped
  | JsonRejects message => Warned message
  | JsonResolves contractData =>
      match getProp contractData "address" with
      | Throw message => Warned message
      | Normal address =>
          if truthy address then
            match getProp contractData "abi" with
            | Throw message => Warned message
            | Normal abi =>
                if truthy abi
                then Accepted {| name := displayName fileName;
                                 address := address; abi := abi |}
                else Skipped
            end
          else Skipped
      end
  end.

(** The loop: [contracts] grows by [push], the console by [console.warn];
    each warning is recorded with the file it is about. *)
Fixpoint loadFiles (env : Env) (fileNames : list string)
    (contracts : list ContractFile) (warnings : list (string * string))
    : list ContractFile * list (string * string) :=
  match fileNames with
  | [] => (contracts, warnings)
  | fileName :: rest =>
      match loadFile env fileName with
      | Accepted file => loadFiles env rest (contracts ++ [file]) warnings
      | Skipped => loadFiles env rest contracts warnings
      | Warned message =>
          loadFiles env rest contracts (warnings ++ [(fileName, message)])
      end
  end.

Definition loadContractFiles (env : Env) : M unit :=
  update (setLoadingContracts (λ _, true));;
  tryFinally
    (tryCatch
       (contractFileNames ← liftC (getContracts env);
        update (setContractFiles (λ _,
                  (loadFiles env contractFileNames [] []).1)))
       (λ _, ret tt))
    (update (setLoadingContracts (λ _, false))).

(** *** Contract selection and connection (lines 179–287) *)

Definition handleContractSelection (contractName : string) : M unit :=
  s0 ← get;
  match List.find (λ c, String.eqb (name c) contractName) (contractFiles s0) with
  | Some selectedContractFile =>
      update (setSelectedContract (λ _, contractName));;
      update (setCurrentContractData (λ _,
                Some (address selectedContractFile, abi selectedContractFile)))
  | None => ret tt
  end.

Definition connectBrowserWallet (env : Env) : M (Signer * string) :=
  if negb (windowEthereum env) then
    throw "No browser wallet found. Please install MetaMask or another wallet extension."
  else
    update (setConnectingWallet (λ _, true));;
    tryFinally
      (tryCatch
         (r ← liftC (requestBrowserSigner env);
          update (setWallet (λ _, Some r.1));;
          update (setWalletAddress (λ _, r.2));;
          ret r)
         (λ message, throw ("Failed to connect wallet: " +:+ message)))
      (update (setConnectingWallet (λ _, false))).

Definition connectPrivateKey (env : Env) (privateKey : string)
    (rpcUrl : list string) : M (Signer * string) :=
  update (setConnectingWallet (λ _, true));;
  tryFinally
    (tryCatch
       (r ← liftC (walletFromKey env privateKey rpcUrl);
        update (setWallet (λ _, Some r.1));;
        update (setWalletAddress (λ _, r.2));;
        ret r)
       (λ message, throw ("Invalid private key or RPC URL: " +:+ message)))
    (update (setConnectingWallet (λ _, false))).

(** [item.type === "function"] *)
Definition isFunctionEntry (item : Value) : Completion bool :=
  cbind (getProp item "type") (λ t,
    Normal match t with
           | VString tag => String.eqb tag "function"
           | _ => false
           end).

(** [Array.prototype.filter] with a callback that may throw. *)
Fixpoint filterC {A} (p : A → Completion bool) (l : list A) : Completion (list A) :=
  match l with
  | [] => Normal []
  | x :: l' =>
      cbind (p x) (λ keep,
      cbind (filterC p l') (λ kept,
        Normal (if keep : bool then x :: kept else kept)))
  end.

(** [abi.filter((item) => item.type === "function")] (line 268); only an
    array has a [filter] method. *)
Definition extractFunctions (abi : Value) : Completion (list Value) :=
  match abi with
  | VArray items => filterC isFunctionEntry items
  | _ => Throw "currentContractData.abi.filter is not a function"
  end.

(** [new Set(functions.map((f) => f.name))]; an entry whose [name] is not
    a string contributes no string to the set. *)
Definition functionNames (functions : list Value) : gset string :=
  list_to_set (omap (λ f, match getProp f "name" with
                          | Normal (VString n) => Some n
                          | _ => None
                          end) functions).

Definition connectToContract (env : Env) : M unit :=
  s0 ← get;
  tryCatch
    (update (setConnectionError (λ _, ""));;
     match currentContractData s0 with
     | None => throw "Please select a contract"
     | Some (contractAddress, contractAbi) =>
         r ← match authMethod s0 with
             | browserWalletAuth => connectBrowserWallet env
             | privateKeyAuth =>
                 if String.eqb (privateKey s0) ""
                 then throw "Please enter your private key"
                 else connectPrivateKey env (privateKey s0)
                        (rpcUrl env (selectedChain s0))
             end;
         functions ← liftC (extractFunctions contractAbi);
         update (setParsedAbi (λ _, functions));;
         update (setExpandedFunctions (λ _, functionNames functions));;
         update (setLatestFunctionResults (λ _, ∅));;
         update (setFunctionResults (λ _, []));;
         contractInstance ← liftC (newContract env contractAddress contractAbi r.1);
         update (setContract (λ _, Some contractInstance));;
         update (setIsConnected (λ _, true))
     end)
    (λ message,
     update (setConnectionError (λ _, message));;
     update (setIsConnected (λ _, false))).

(** *** Remaining handlers *)

Definition toggleFunctionExpanded (functionName : string) : M unit :=
  update (setExpandedFunctions (λ prev,
    if bool_decide (functionName ∈ prev)
    then prev ∖ {[functionName]}
    else prev ∪ {[functionName]})).

Definition checkBrowserWallet (env : Env) : M unit :=
  update (setBrowserWalletAvailable (λ _, windowEthereum env)).

(** *** Sessions

    Everything that writes component state: the two mount effects and the
    event handlers wired in the markup. *)
Inductive Action : Type :=
| CheckBrowserWallet
| LoadContractFiles
| SelectChain (value : Chain)
| SelectContract (contractName : string)
| SelectAuthMethod (value : AuthMethod)
| EnterPrivateKey (value : string)
| OpenConfig (open : bool)
| ConnectToContract
| ToggleFunctionExpanded (functionName : string)
| HandleInputChange (functionName inputName value : string)
| ExecuteFunction (func : ContractFunction.t).

Definition perform (env : Env) (a : Action) : M unit :=
  match a with
  | CheckBrowserWallet => checkBrowserWallet env
  | LoadContractFiles => loadContractFiles env
  | SelectChain value => update (setSelectedChain (λ _, value))
  | SelectContract contractName => handleContractSelection contractName
  | SelectAuthMethod value => update (setAuthMethod (λ _, value))
  | EnterPrivateKey value => update (setPrivateKey (λ _, value))
  | OpenConfig open => update (setConfigExpanded (λ _, open))
  | ConnectToContract => connectToContract env
  | ToggleFunctionExpanded functionName => toggleFunctionExpanded functionName
  | HandleInputChange functionName inputName value =>
      handleInputChange functionName inputName value
  | ExecuteFunction func => executeFunction env func
  end.

(** The state after an operation, whatever its completion. *)
Definition after (env : Env) (a : Action) (s : State) : State :=
  (perform env a s).2.

(** A session: each step comes with the environment it ran in. *)
Definition session (steps : list (Env * Action)) (s : State) : State :=
  foldl (λ st step, after step.1 step.2 st) s steps.

(** Sequences of form edits: [(functionName, inputName, value)] in call
    order. *)
Definition setInputs (calls : list (string * string * string)) (s : State) : State :=
  foldl (λ st call, (handleInputChange call.1.1 call.1.2 call.2 st).2) s calls.

(** The value of the last call that addressed [inputName] of
    [functionName], if any. *)
Definition lastStored (calls : list (string * string * string))
    (functionName inputName : string) : option string :=
  last (omap (λ call : string * string * string,
                if bool_decide (call.1.1 = functionName ∧ call.1.2 = inputName)
                then Some call.2 else None) calls).

(** The environment whose integer parser is the library model. *)
Definition withEthers (env : Env) : Env :=
  {| now := now env;
     getBigInt := Ethers.getBigInt;
     JSON_parse := JSON_parse env;
     staticCall := staticCall env;
     sendTransaction := sendTransaction env;
     windowEthereum := windowEthereum env;
     requestBrowserSigner := requestBrowserSigner env;
     walletFromKey := walletFromKey env;
     newContract := newContract env;
     rpcUrl := rpcUrl env;
     getContracts := getContracts env;
     fetchContract := fetchContract env;
     builtinInput := builtinInput env |}.

(** The ways the body of [executeFunction]'s [try] can fail, each with the
    message of the exception. *)
Inductive InvocationFails (env : Env) (c : ContractInstance)
    (inputs : Inputs) (func : ContractFunction.t)
    : string → Prop :=
| coercion_fails message :
    coerceInputs env inputs func = Throw message →
    InvocationFails env c inputs func message
| call_fails args message :
    coerceInputs env inputs func = Normal args →
    isReadOnly func = true →
    staticCall env c (ContractFunction.name func) args = Throw message →
    InvocationFails env c inputs func message
| submission_fails args message :
    coerceInputs env inputs func = Normal args →
    isReadOnly func = false →
    sendTransaction env c (ContractFunction.name func) args = Throw message →
    InvocationFails env c inputs func message
| transaction_fails args tx message :
    coerceInputs env inputs func = Normal args →
    isReadOnly func = false →
    sendTransaction env c (ContractFunction.name func) args = Normal tx →
    wait tx = Throw message →
    InvocationFails env c inputs func message
| receipt_missing args tx :
    coerceInputs env inputs func = Normal args →
    isReadOnly func = false →
    sendTransaction env c (ContractFunction.name func) args = Normal tx →
    wait tx = Normal None →
    InvocationFails env c inputs func
      "Cannot read properties of null (reading 'gasUsed')".

(** The record an invocation leaves behind, and the state in which it has
    been recorded. *)
Definition invocationRecord (env : Env) (c : ContractInstance)
    (inputs : Inputs) (func : ContractFunction.t) : FunctionResult :=
  match cbind (coerceInputs env inputs func) (dispatch env c func) with
  | Normal (result, gasUsed, transactionHash) =>
      {| functionName := ContractFunction.name func; inputs := snapshot inputs;
         result := formatResult result; error := None; gasUsed := gasUsed;
         transactionHash := transactionHash; timestamp := now env |}
  | Throw message =>
      {| functionName := ContractFunction.name func; inputs := snapshot inputs;
         result := VNull; error := Some message; gasUsed := None;
         transactionHash := None; timestamp := now env |}
  end.

Definition recorded (functionResult : FunctionResult) (s : State) : State :=
  setLoadingFunctions (λ prev, prev ∖ {[functionName functionResult]})
    (setLatestFunctionResults (λ prev,
        <[functionName functionResult := functionResult]> prev)
      (setFunctionResults (λ prev, functionResult :: prev)
        (setLoadingFunctions (λ prev, prev ∪ {[functionName functionResult]}) s))).

(** ** Vocabulary of the statements *)

(** [Array.isArray(v)] *)
Definition isArray (v : Value) : bool :=
  match v with VArray _ => true | _ => false end.

(** [v == null] *)
Definition isNullish (v : Value) : bool :=
  match v with VUndefined | VNull => true | _ => false end.

(** An ABI entry whose type tag is [function]. *)
Definition hasFunctionTag (item : Value) : bool :=
  match item with
  | VObject props =>
      match assoc "type" props with
      | Some (VString tag) => String.eqb tag "function"
      | _ => false
      end
  | _ => false
  end.

(** The catalog entry a file contributes, and the warning it causes. *)
Definition accepted (env : Env) (fileName : string) : option ContractFile :=
  match loadFile env fileName with
  | Accepted file => Some file
  | _ => None
  end.

Definition warned (env : Env) (fileName : string) : option (string * string) :=
  match loadFile env fileName with
  | Warned message => Some (fileName, message)
  | _ => None
  end.

(** Normalization as the specification words it: every bigint, at any
    depth of sequences and records, becomes its decimal numeral. *)
Fixpoint normalizeDeep (v : Value) : Value :=
  match v with
  | VBigInt n => VString (bigintToString n)
  | VArray items => VArray (map normalizeDeep items)
  | VObject props => VObject (map (λ kv, (kv.1, normalizeDeep kv.2)) props)
  | _ => v
  end.

(** A bigint occurs somewhere in [v]. *)
Fixpoint containsBigInt (v : Value) : bool :=
  match v with
  | VBigInt _ => true
  | VArray items => existsb containsBigInt items
  | VObject props => existsb (λ kv, containsBigInt kv.2) props
  | _ => false
  end.

(** A bigint occurs in [v] below its immediate members. *)
Definition nestsBigInt (v : Value) : bool :=
  match v with
  | VArray items =>
      existsb (λ item, negb (isBigInt item) && containsBigInt item) items
  | VObject props =>
      existsb (λ kv, negb (isBigInt kv.2) && containsBigInt kv.2) props
  | _ => false
  end.


(** The declared type is one of [uint*] and [int*]. *)
Definition isIntegerType (type : string) : bool :=
  String.prefix "uint" type || String.prefix "int" type.

(** An operation respects a relation between the state before and the
    state after when the relation holds whatever its completion. *)
Definition respects (R : relation State) {A} (m : M A) : Prop :=
  ∀ s, R s (m s).2.

(** The result log is as it was, or empty. *)
Definition logResets : relation State :=
  λ s s', functionResults s' = functionResults s ∨ functionResults s' = [].

(** ** A sample deployment

    A descriptor directory, a token contract and a wallet, used to run the
    operations on concrete inputs. *)

Definition tokenAbi : Value :=
  VArray
    [ VObject [("type", VString "constructor"); ("inputs", VArray [])];
      VObject [("type", VString "function"); ("name", VString "totalSupply");
               ("stateMutability", VString "view"); ("inputs", VArray [])];
      VObject [("type", VString "event"); ("name", VString "Transfer")];
      VObject [("type", VString "function"); ("name", VString "mint");
               ("stateMutability", VString "nonpayable")];
      VObject [("type", VString "error"); ("name", VString "NotOwner")] ].

Definition tokenAddress : Value :=
  VString "0x5FbDB2315678afecb367f032d93F642f64180aa3".

Definition sampleSigner : Signer :=
  {| signerAddress := "0xf39Fd6e51aad88F6F4ce6aB8827279cffFb92266" |}.

Definition sampleContract : ContractInstance :=
  {| target := tokenAddress; interface := tokenAbi; runner := sampleSigner |}.

Definition sampleEnv : Env :=
  {| now := 1700000000000;
     getBigInt := Ethers.getBigInt;
     JSON_parse := λ text,
       if String.eqb text "[]" then Normal (VArray [])
       else if String.eqb text "[1,2,3]"
       then Normal (VArray [number 1; number 2; number 3])
       else Throw "Unexpected token";
     staticCall := λ _ functionName _,
       if String.eqb functionName "totalSupply"
       then Normal (VBigInt 123456789012345678901234567890)
       else Throw "missing revert data";
     sendTransaction := λ _ _ _, Throw "execution reverted: NotOwner()";
     windowEthereum := true;
     requestBrowserSigner := Normal (sampleSigner, signerAddress sampleSigner);
     walletFromKey := λ _ _, Throw "invalid private key";
     newContract := λ contractAddress contractAbi signer,
       Normal {| target := contractAddress; interface := contractAbi;
                 runner := signer |};
     rpcUrl := λ _, ["http://127.0.0.1:8545"];
     getContracts := Normal ["my-token.json"; "broken.json"; "no-abi.json";
                             "odd-abi.json"; "missing.json"];
     fetchContract := λ fileName,
       if String.eqb fileName "my-token.json"
       then JsonResolves (VObject [("address", tokenAddress); ("abi", tokenAbi)])
       else if String.eqb fileName "broken.json"
       then JsonRejects "Unexpected end of JSON input"
       else if String.eqb fileName "no-abi.json"
       then JsonResolves (VObject [("address", tokenAddress)])
       else if String.eqb fileName "odd-abi.json"
       then JsonResolves (VObject [("address", tokenAddress);
                                   ("abi", VString "see the docs")])
       else ResponseNotOk;
     builtinInput := λ _ input,
       if includes "int" (AbiInput.type input) then Normal (VBigInt 0)
       else if String.eqb (AbiInput.type input) "bool" then Normal (VBool false)
       else if includes "[]" (AbiInput.type input) then Normal (VArray [])
       else Normal (VString "") |}.

Definition totalSupply : ContractFunction.t :=
  ContractFunction.make "totalSupply" "function" "view" [] [].

Definition mint : ContractFunction.t :=
  ContractFunction.make "mint" "function" "nonpayable"
    [AbiInput.make "to" "address" None; AbiInput.make "amount" "uint256" None] [].

Definition sumOf : ContractFunction.t :=
  ContractFunction.make "sumOf" "function" "view"
    [AbiInput.make "ids" "uint256[]" None] [].

(** The state after loading the catalog, picking the token and connecting. *)
Definition connectedState : State :=
  session [(sampleEnv, LoadContractFiles); (sampleEnv, SelectContract "My Token");
           (sampleEnv, ConnectToContract)] initialState.

(** The connected state after one successful read. *)
Definition stateWithHistory : State :=
  after sampleEnv (ExecuteFunction totalSupply) connectedState.

(** ** Markup around the handlers *)

(** The icon component [getFunctionIcon] returns (lines 392–402). *)
Inductive Icon : Type := Eye | DollarSign | Zap.

Definition getFunctionIcon (stateMutability : string) : Icon :=
  if String.eqb stateMutability "view" || String.eqb stateMutability "pure"
  then Eye
  else if String.eqb stateMutability "payable" then DollarSign
  else Zap.

(** [getFunctionColor] (lines 404–414) *)
Definition getFunctionColor (stateMutability : string) : string :=
  if String.eqb stateMutability "view" || String.eqb stateMutability "pure"
  then "bg-blue-100 text-blue-800 border-blue-200"
  else if String.eqb stateMutability "payable"
  then "bg-green-100 text-green-800 border-green-200"
  else "bg-orange-100 text-orange-800 border-orange-200".

(** [disabled] of the Connect button (lines 564–569) *)
Definition connectDisabled (s : State) : bool :=
  match currentContractData s with None => true | Some _ => false end
  || match authMethod s with
     | privateKeyAuth => String.eqb (privateKey s) ""
     | browserWalletAuth => false
     end
  || connectingWallet s
  || match authMethod s with
     | browserWalletAuth => negb (browserWalletAvailable s)
     | privateKeyAuth => false
     end.

(** [disabled] of a function's Execute button (line 676) *)
Definition executeDisabled (s : State) (func : ContractFunction.t) : bool :=
  negb (isConnected s)
  || bool_decide (ContractFunction.name func ∈ loadingFunctions s).

(** The function count of the selected contract's summary (lines 489–499):
    nothing is rendered without a selection, and the filter runs in the
    render. *)
Definition functionCount (s : State) : Completion (option nat) :=
  match currentContractData s with
  | None => Normal None
  | Some (_, contractAbi) =>
      cbind (extractFunctions contractAbi) (λ functions,
        Normal (Some (length functions)))
  end.

(** ** Vocabulary for the connection handler *)

(** The message of the check that stops [connectToContract] before any
    wallet is asked, if one does. *)
Definition validationError (env : Env) (s : State) : option string :=
  match currentContractData s with
  | None => Some "Please select a contract"
  | Some _ =>
      match authMethod s with
      | browserWalletAuth =>
          if windowEthereum env then None
          else Some "No browser wallet found. Please install MetaMask or another wallet extension."
      | privateKeyAuth =>
          if String.eqb (privateKey s) "" then Some "Please enter your private key"
          else None
      end
  end.

(** The wallet library's answer for the selected authentication method. *)
Definition walletOracle (env : Env) (s : State) : Completion (Signer * string) :=
  match authMethod s with
  | browserWalletAuth => requestBrowserSigner env
  | privateKeyAuth =>
      walletFromKey env (privateKey s) (rpcUrl env (selectedChain s))
  end.

(** The text put in front of a wallet failure. *)
Definition walletErrorPrefix (method : AuthMethod) : string :=
  match method with
  | browserWalletAuth => "Failed to connect wallet: "
  | privateKeyAuth => "Invalid private key or RPC URL: "
  end.

(** What the [catch] of [connectToContract] does. *)
Definition connectionFailed (message : string) (s : State) : State :=
  setIsConnected (λ _, false) (setConnectionError (λ _, message) s).

(** The state once a wallet has answered with [r]. *)
Definition walletConnected (r : Signer * string) (s : State) : State :=
  setConnectingWallet (λ _, false)
    (setWalletAddress (λ _, r.2)
       (setWallet (λ _, Some r.1)
          (setConnectingWallet (λ _, true) (setConnectionError (λ _, "") s)))).

(** The state once the function list is in place and the history is
    cleared. *)
Definition abiParsed (functions : list Value) (s : State) : State :=
  setFunctionResults (λ _, [])
    (setLatestFunctionResults (λ _, ∅)
       (setExpandedFunctions (λ _, functionNames functions)
          (setParsedAbi (λ _, functions) s))).

(** ** Vocabulary for sessions *)

(** A log record is an error record, a read record or a transaction
    record. *)
Definition wellFormedRecord (r : FunctionResult) : Prop :=
  (is_Some (error r) →
     result r = VNull ∧ gasUsed r = None ∧ transactionHash r = None)
  ∧ (is_Some (gasUsed r) ↔ is_Some (transactionHash r)).

(** The most recent record of the function named [f] in a log. *)
Definition mostRecent (f : string) (log : list FunctionResult)
    : option FunctionResult :=
  List.find (λ r, String.eqb (functionName r) f) log.

(** The number of invocations among the steps of a session. *)
Definition isInvocation (a : Action) : bool :=
  match a with ExecuteFunction _ => true | _ => false end.

Definition invocations (steps : list (Env * Action)) : nat :=
  length (List.filter (λ step : Env * Action, isInvocation step.2) steps).

(** No ASCII lower-case letter starts a word of [s]; [prevWord] tells
    whether a word character comes right before [s]. *)
Fixpoint titleCased (prevWord : bool) (s : string) : bool :=
  match s with
  | EmptyString => true
  | String c s' =>
      negb (isWordChar c && negb prevWord && isLower c)
      && titleCased (isWordChar c) s'
  end.

(** Variants of the sample environment. *)
Definition withBrowserSigner (answer : Completion (Signer * string))
    (env : Env) : Env :=
  {| now := now env; getBigInt := getBigInt env; JSON_parse := JSON_parse env;
     staticCall := staticCall env; sendTransaction := sendTransaction env;
     windowEthereum := windowEthereum env; requestBrowserSigner := answer;
     walletFromKey := walletFromKey env; newContract := newContract env;
     rpcUrl := rpcUrl env; getContracts := getContracts env;
     fetchContract := fetchContract env;
     builtinInput := builtinInput env |}.

Definition withNewContract
    (answer : Value → Value → Signer → Completion ContractInstance)
    (env : Env) : Env :=
  {| now := now env; getBigInt := getBigInt env; JSON_parse := JSON_parse env;
     staticCall := staticCall env; sendTransaction := sendTransaction env;
     windowEthereum := windowEthereum env;
     requestBrowserSigner := requestBrowserSigner env;
     walletFromKey := walletFromKey env; newContract := answer;
     rpcUrl := rpcUrl env; getContracts := getContracts env;
     fetchContract := fetchContract env;
     builtinInput := builtinInput env |}.

Definition withSendTransaction
    (answer : ContractInstance → string → list Value
              → Completion TransactionResponse)
    (env : Env) : Env :=
  {| now := now env; getBigInt := getBigInt env; JSON_parse := JSON_parse env;
     staticCall := staticCall env; sendTransaction := answer;
     windowEthereum := windowEthereum env;
     requestBrowserSigner := requestBrowserSigner env;
     walletFromKey := walletFromKey env; newContract := newContract env;
     rpcUrl := rpcUrl env; getContracts := getContracts env;
     fetchContract := fetchContract env;
     builtinInput := builtinInput env |}.

(** The catalog is loaded and the entry whose [abi] is a string is
    selected. *)
Definition oddSelection : State :=
  session [(sampleEnv, LoadContractFiles); (sampleEnv, SelectContract "Odd Abi")]
    initialState.

(** The catalog is loaded and the token is selected. *)
Definition tokenSelection : State :=
  session [(sampleEnv, LoadContractFiles); (sampleEnv, SelectContract "My Token")]
    initialState.

(** A catalog entry as the loader makes them: a present address and ABI
    under a display name. *)
Definition wellFormedEntry (c : ContractFile) : Prop :=
  truthy (address c) = true ∧ truthy (abi c) = true
  ∧ includes "-" (name c) = false ∧ titleCased false (name c) = true.

(** The string the form state holds for a parameter, if any. *)
Definition stored (functionInputs : gmap string (gmap string string))
    (functionName inputName : string) : option string :=
  functionInputs !! functionName ≫= λ own, own !! inputName.

(** Some call of the sequence addressed [functionName]. *)
Definition touched (calls : list (string * string * string))
    (functionName : string) : bool :=
  existsb (λ call, String.eqb call.1.1 functionName) calls.

(** The environment whose read calls answer as given. *)
Definition withStaticCall
    (answer : ContractInstance → string → list Value → Completion Value)
    (env : Env) : Env :=
  {| now := now env;
     getBigInt := getBigInt env;
     JSON_parse := JSON_parse env;
     staticCall := answer;
     sendTransaction := sendTransaction env;
     windowEthereum := windowEthereum env;
     requestBrowserSigner := requestBrowserSigner env;
     walletFromKey := walletFromKey env;
     newContract := newContract env;
     rpcUrl := rpcUrl env;
     getContracts := getContracts env;
     fetchContract := fetchContract env;
     builtinInput := builtinInput env |}.

(** A plain object inherits nothing truthy under [key]. *)
Definition inheritsNothing (key : string) : bool :=
  negb (truthy (objectPrototype key)).

(** * Properties *)

(** ** Result formatting *)

Section Formatting.

Lemma Value_nested_ind (P : Value → Prop) :
  P VUndefined → P VNull → (∀ b, P (VBool b)) → (∀ x, P (VNumber x)) →
  (∀ n, P (VBigInt n)) → (∀ s, P (VString s)) →
  (∀ items, Forall P items → P (VArray items)) →
  (∀ props, Forall (λ kv, P kv.2) props → P (VObject props)) →
  (∀ name, P (VFunction name)) →
  ∀ v, P v.
Proof.
  intros Hundef Hnull Hbool Hnum Hbig Hstr Harr Hobj Hfun.
  fix IH 1. intros [ | |b|x|n|s|items|props|name];
    [exact Hundef|exact Hnull|apply Hbool|apply Hnum|apply Hbig|apply Hstr|
    | |apply Hfun].
  - apply Harr. induction items as [|item items IHitems]; constructor;
      [apply IH|exact IHitems].
  - apply Hobj. induction props as [|[key value] props IHprops]; constructor;
      [apply IH|exact IHprops].
Qed.

Lemma normalizeDeep_clean v : containsBigInt v = false → normalizeDeep v = v.
Proof.
  induction v as [ | |b|x|n|s|items IH|props IH|name] using Value_nested_ind;
    try done; simpl; intros Hclean; f_equal.
  - induction IH as [|item items Hitem _ IHitems]; [done|]. simpl in *.
    apply orb_false_elim in Hclean as [H1 H2]. by rewrite Hitem, IHitems.
  - induction IH as [|[key value] props Hvalue _ IHprops]; [done|]. simpl in *.
    apply orb_false_elim in Hclean as [H1 H2]. by rewrite Hvalue, IHprops.
Qed.

Lemma formatItem_deep item :
  negb (isBigInt item) && containsBigInt item = false →
  formatItem item = normalizeDeep item
  ∧ containsBigInt (formatItem item) = false.
Proof.
  destruct item as [ | |b|x|n|s|items|props|name]; try done; intros Hclean.
  - split; [|exact Hclean].
    symmetry. by apply (normalizeDeep_clean (VArray items)).
  - split; [|exact Hclean].
    symmetry. by apply (normalizeDeep_clean (VObject props)).
Qed.

Lemma formatResult_deep v :
  nestsBigInt v = false →
  formatResult v = normalizeDeep v ∧ containsBigInt (formatResult v) = false.
Proof.
  destruct v as [ | |b|x|n|s|items|props|name]; try done; simpl; intros Hflat.
  - enough (map formatItem items = map normalizeDeep items
            ∧ existsb containsBigInt (map formatItem items) = false)
      as [-> ->] by done.
    induction items as [|item items IH]; [done|]. simpl in *.
    apply orb_false_elim in Hflat as [Hitem Hitems].
    destruct (formatItem_deep item Hitem) as [-> ->].
    by destruct (IH Hitems) as [-> ->].
  - enough (map (λ '(key, value), (key, formatItem value)) props
            = map (λ kv, (kv.1, normalizeDeep kv.2)) props
            ∧ existsb (λ kv, containsBigInt kv.2)
                (map (λ '(key, value), (key, formatItem value)) props) = false)
      as [-> ->] by done.
    induction props as [|[key value] props IH]; [done|]. simpl in *.
    apply orb_false_elim in Hflat as [Hvalue Hprops].
    destruct (formatItem_deep value Hvalue) as [-> ->].
    by destruct (IH Hprops) as [-> ->].
Qed.

End Formatting.

(** ** [executeFunction] *)

Section Invocation.

Variable env : Env.
Variable func : ContractFunction.t.

(** The snapshot of the inputs object is the function's own record. *)
Lemma snapshot_getInputs functionInputs functionName :
  snapshot (getInputs functionInputs functionName)
  = default ∅ (functionInputs !! functionName).
Proof.
  unfold getInputs. destruct (functionInputs !! functionName); [done|].
  by destruct (truthy _).
Qed.

Lemma executeFunction_connected (s : State) c w :
  contract s = Some c → wallet s = Some w →
  executeFunction env func s =
    (Normal tt,
     recorded (invocationRecord env c
                 (getInputs (functionInputs s) (ContractFunction.name func)) func) s).
Proof.
  intros Hc Hw.
  unfold executeFunction, invocationRecord, recorded, mbind, M_bind, bind, get.
  rewrite Hc, Hw.
  unfold tryFinally, tryCatch, update, liftC; simpl.
  rewrite snapshot_getInputs.
  destruct (coerceInputs env _ func) as [args|message]; simpl; [|done].
  destruct (dispatch env c func args) as [[[r g] h]|message]; simpl; done.
Qed.

Lemma executeFunction_idle (s : State) :
  contract s = None ∨ wallet s = None →
  executeFunction env func s = (Normal tt, s).
Proof.
  intros H. unfold executeFunction, mbind, M_bind, bind, get.
  destruct H as [-> | H]; [done|].
  rewrite H. by destruct (contract s).
Qed.

Lemma invocationRecord_failure c inputs message :
  InvocationFails env c inputs func message →
  invocationRecord env c inputs func =
    {| functionName := ContractFunction.name func; inputs := snapshot inputs;
       result := VNull; error := Some message; gasUsed := None;
       transactionHash := None; timestamp := now env |}.
Proof.
  unfold invocationRecord, dispatch.
  destruct 1 as [m H|args m H Hro Hcall|args m H Hro Hsend
                |args tx m H Hro Hsend Hwait|args tx H Hro Hsend Hwait];
    rewrite H; simpl; [done|rewrite Hro..]; simpl.
  - by rewrite Hcall.
  - by rewrite Hsend.
  - by rewrite Hsend; simpl; rewrite Hwait.
  - by rewrite Hsend; simpl; rewrite Hwait.
Qed.

End Invocation.

(** C10: with no contract instance or no wallet, [executeFunction] returns
    at once and leaves every state cell as it was: nothing is appended to
    the result log or to the latest-by-function projection, and the set of
    loading functions is untouched. *)
Theorem executeFunction_without_connection (env : Env)
    (func : ContractFunction.t) (s : State) :
  contract s = None ∨ wallet s = None →
  executeFunction env func s = (Normal tt, s)
  ∧ functionResults (after env (ExecuteFunction func) s) = functionResults s
  ∧ latestFunctionResults (after env (ExecuteFunction func) s)
    = latestFunctionResults s
  ∧ loadingFunctions (after env (ExecuteFunction func) s) = loadingFunctions s.
Proof.
  intros H. unfold after; simpl.
  rewrite (executeFunction_idle env func s H). done.
Qed.

Lemma executeFunction_without_connection_witness :
  contract initialState = None
  ∧ executeFunction sampleEnv totalSupply initialState = (Normal tt, initialState).
Proof.
  split; [reflexivity|].
  apply (executeFunction_without_connection sampleEnv totalSupply initialState).
  left; reflexivity.
Defined.

(** C5 (amended): a successful invocation of a [view] or [pure] function
    produces exactly one new record, with [error], [transactionHash] and
    [gasUsed] unset, the function's own form values as [inputs], and as
    [result] the return value of the read call formatted one level deep;
    that is the recursively normalized return value whenever no bigint
    sits below the immediate members of the return value.  The record is
    put in front of the result log and replaces the latest entry of its
    function name. *)
Theorem executeFunction_read_success (env : Env) (func : ContractFunction.t)
    (s : State) (c : ContractInstance) (w : Signer) (args : list Value)
    (returned : Value) :
  contract s = Some c → wallet s = Some w →
  (ContractFunction.stateMutability func = "view"
   ∨ ContractFunction.stateMutability func = "pure") →
  coerceInputs env (getInputs (functionInputs s) (ContractFunction.name func)) func
  = Normal args →
  staticCall env c (ContractFunction.name func) args = Normal returned →
  ∃ functionResult,
    (perform env (ExecuteFunction func) s).1 = Normal tt
    ∧ functionResults (after env (ExecuteFunction func) s)
      = functionResult :: functionResults s
    ∧ latestFunctionResults (after env (ExecuteFunction func) s)
      = <[ContractFunction.name func := functionResult]> (latestFunctionResults s)
    ∧ functionName functionResult = ContractFunction.name func
    ∧ inputs functionResult
      = default ∅ (functionInputs s !! ContractFunction.name func)
    ∧ result functionResult = formatResult returned
    ∧ (nestsBigInt returned = false →
       result functionResult = normalizeDeep returned
       ∧ containsBigInt (result functionResult) = false)
    ∧ error functionResult = None
    ∧ transactionHash functionResult = None
    ∧ gasUsed functionResult = None.
Proof.
  intros Hc Hw Hmut Hargs Hcall.
  assert (Hro : isReadOnly func = true).
  { unfold isReadOnly. destruct Hmut as [-> | ->]; reflexivity. }
  unfold after; simpl.
  rewrite (executeFunction_connected env func s c w Hc Hw).
  unfold invocationRecord, dispatch. rewrite Hargs; simpl.
  rewrite Hro, Hcall; simpl.
  eexists; repeat split; try reflexivity.
  - apply snapshot_getInputs.
  - simpl. by apply formatResult_deep.
  - simpl. by apply formatResult_deep.
Qed.

(** C6: an invocation never throws to its caller and always leaves its
    function out of the loading set; when coercion, the call or the
    transaction fails, exactly one new record is put in front of the log and
    made the latest of its function, with a null [result], the failure's
    message as [error] and no transaction hash. *)
Theorem executeFunction_failure_recorded (env : Env) (func : ContractFunction.t)
    (s : State) (c : ContractInstance) (w : Signer) :
  contract s = Some c → wallet s = Some w →
  (perform env (ExecuteFunction func) s).1 = Normal tt
  ∧ (ContractFunction.name func
     ∉ loadingFunctions (after env (ExecuteFunction func) s))
  ∧ ∀ message,
      InvocationFails env c
        (getInputs (functionInputs s) (ContractFunction.name func)) func message →
      ∃ functionResult,
        functionResults (after env (ExecuteFunction func) s)
        = functionResult :: functionResults s
        ∧ latestFunctionResults (after env (ExecuteFunction func) s)
          = <[ContractFunction.name func := functionResult]>
              (latestFunctionResults s)
        ∧ functionName functionResult = ContractFunction.name func
        ∧ result functionResult = VNull
        ∧ error functionResult = Some message
        ∧ transactionHash functionResult = None
        ∧ gasUsed functionResult = None.
Proof.
  intros Hc Hw. unfold after; simpl.
  rewrite (executeFunction_connected env func s c w Hc Hw).
  assert (Hname : ∀ inputs,
    functionName (invocationRecord env c inputs func) = ContractFunction.name func).
  { intros inputs. unfold invocationRecord.
    by destruct (cbind _ _) as [[[r g] h]|m]. }
  split; [done|]. split.
  - unfold recorded; simpl. rewrite Hname.
    intros [_ Hout]%elem_of_difference. by apply Hout, elem_of_singleton.
  - intros message Hfail.
    rewrite (invocationRecord_failure env func c _ message Hfail).
    eexists; repeat split; reflexivity.
Qed.

Lemma executeFunction_read_success_witness :
  ∃ functionResult,
    functionResults (after sampleEnv (ExecuteFunction totalSupply) connectedState)
    = functionResult :: functionResults connectedState
    ∧ result functionResult = VString "123456789012345678901234567890"
    ∧ error functionResult = None
    ∧ transactionHash functionResult = None.
Proof.
  destruct (executeFunction_read_success sampleEnv totalSupply connectedState
              sampleContract sampleSigner []
              (VBigInt 123456789012345678901234567890))
    as (functionResult & _ & Hlog & _ & _ & _ & Hresult & _ & Herror & Hhash & _);
    [vm_compute; reflexivity | vm_compute; reflexivity | left; reflexivity
    | vm_compute; reflexivity | vm_compute; reflexivity |].
  exists functionResult. exact (conj Hlog (conj Hresult (conj Herror Hhash))).
Defined.

(** C5, counterexample: a read call that succeeds with a bigint inside a
    nested sequence.  The record's [result] still holds that bigint, so it
    is not the normalized return value. *)
Lemma executeFunction_read_keeps_nested_bigint :
  let returned := VArray [VArray [VBigInt 7]; VBigInt 8] in
  let env := withStaticCall (λ _ _ _, Normal returned) sampleEnv in
  contract connectedState = Some sampleContract
  ∧ wallet connectedState = Some sampleSigner
  ∧ ContractFunction.stateMutability totalSupply = "view"
  ∧ coerceInputs env
      (getInputs (functionInputs connectedState) "totalSupply") totalSupply
    = Normal []
  ∧ staticCall env sampleContract "totalSupply" [] = Normal returned
  ∧ ∃ functionResult,
      functionResults (after env (ExecuteFunction totalSupply) connectedState)
      = functionResult :: functionResults connectedState
      ∧ error functionResult = None
      ∧ result functionResult = VArray [VArray [VBigInt 7]; VString "8"]
      ∧ normalizeDeep returned = VArray [VArray [VString "7"]; VString "8"]
      ∧ result functionResult ≠ normalizeDeep returned
      ∧ containsBigInt (result functionResult) = true.
Proof.
  intros returned env.
  repeat (split; [vm_compute; reflexivity|]).
  eexists. split; [vm_compute; reflexivity|].
  repeat split; try reflexivity. intros [=].
Qed.

Lemma executeFunction_failure_recorded_witness :
  ∃ functionResult,
    functionResults (after sampleEnv (ExecuteFunction mint) connectedState)
    = functionResult :: functionResults connectedState
    ∧ result functionResult = VNull
    ∧ error functionResult = Some "execution reverted: NotOwner()"
    ∧ transactionHash functionResult = None.
Proof.
  destruct (executeFunction_failure_recorded sampleEnv mint connectedState
              sampleContract sampleSigner) as (_ & _ & Hfail);
    [vm_compute; reflexivity | vm_compute; reflexivity |].
  destruct (Hfail "execution reverted: NotOwner()")
    as (functionResult & Hlog & _ & _ & Hresult & Herror & Hhash & _).
  { apply submission_fails with (args := [VString ""; VBigInt 0]);
      vm_compute; reflexivity. }
  exists functionResult. exact (conj Hlog (conj Hresult (conj Herror Hhash))).
Defined.

(** ** Form state *)

Section FormState.

Implicit Types (s : State) (calls : list (string * string * string)).

Lemma handleInputChange_run functionName inputName value s :
  handleInputChange functionName inputName value s
  = (Normal tt,
     setFunctionInputs (λ prev,
       <[functionName := <[inputName := value]> (default ∅ (prev !! functionName))]>
         prev) s).
Proof. reflexivity. Qed.

Lemma stored_after_change functionName inputName value s f p :
  stored (functionInputs (handleInputChange functionName inputName value s).2) f p
  = if bool_decide (functionName = f ∧ inputName = p) then Some value
    else stored (functionInputs s) f p.
Proof.
  rewrite handleInputChange_run; simpl. unfold stored.
  destruct (decide (functionName = f)) as [->|Hf].
  - rewrite lookup_insert_eq; simpl.
    destruct (decide (inputName = p)) as [->|Hp].
    + rewrite lookup_insert_eq, bool_decide_eq_true_2; done.
    + rewrite lookup_insert_ne, bool_decide_eq_false_2; [|tauto|done].
      by destruct (functionInputs s !! f).
  - rewrite lookup_insert_ne, bool_decide_eq_false_2; [done|tauto|done].
Qed.

Lemma setInputs_snoc calls call s :
  setInputs (calls ++ [call]) s
  = (handleInputChange call.1.1 call.1.2 call.2 (setInputs calls s)).2.
Proof. unfold setInputs. by rewrite foldl_app. Qed.

Lemma lastStored_snoc calls call f p :
  lastStored (calls ++ [call]) f p
  = if bool_decide (call.1.1 = f ∧ call.1.2 = p) then Some call.2
    else lastStored calls f p.
Proof.
  unfold lastStored. rewrite omap_app; simpl.
  case_bool_decide; simpl.
  - by rewrite last_snoc.
  - by rewrite app_nil_r.
Qed.

Lemma stored_setInputs calls s f p :
  stored (functionInputs (setInputs calls s)) f p
  = match lastStored calls f p with
    | Some value => Some value
    | None => stored (functionInputs s) f p
    end.
Proof.
  induction calls as [|call calls IH] using rev_ind; [done|].
  rewrite setInputs_snoc, stored_after_change, lastStored_snoc.
  by case_bool_decide.
Qed.

Lemma touched_snoc calls call f :
  touched (calls ++ [call]) f = touched calls f || String.eqb call.1.1 f.
Proof. unfold touched. rewrite existsb_app; simpl. by rewrite orb_false_r. Qed.

Lemma functionInputs_touched calls s f :
  bool_decide (is_Some (functionInputs (setInputs calls s) !! f))
  = touched calls f || bool_decide (is_Some (functionInputs s !! f)).
Proof.
  induction calls as [|call calls IH] using rev_ind; [done|].
  rewrite setInputs_snoc, handleInputChange_run, touched_snoc; simpl.
  destruct (String.eqb_spec call.1.1 f) as [->|Hf].
  - rewrite lookup_insert_eq, orb_true_r. by apply bool_decide_eq_true_2.
  - rewrite lookup_insert_ne by exact Hf. by rewrite IH, orb_false_r.
Qed.

(** The keys under which a plain object inherits a member. *)
Lemma inheritsNothing_members key :
  inheritsNothing key
  = negb (bool_decide (key ∈ ["constructor"; "__proto__";
                              "hasOwnProperty"; "isPrototypeOf";
                              "propertyIsEnumerable"; "toLocaleString";
                              "toString"; "valueOf";
                              "__defineGetter__"; "__defineSetter__";
                              "__lookupGetter__"; "__lookupSetter__"])).
Proof.
  unfold inheritsNothing, objectPrototype.
  destruct (String.eqb_spec key "constructor") as [->|Hconstructor];
    [reflexivity|].
  destruct (String.eqb_spec key "__proto__") as [->|Hproto]; [reflexivity|].
  destruct (bool_decide (key ∈ _)) eqn:Hmember at 1.
  - apply bool_decide_eq_true_1 in Hmember. simpl. symmetry.
    apply negb_false_iff, bool_decide_eq_true_2. by do 2 right.
  - apply bool_decide_eq_false_1 in Hmember. simpl. symmetry.
    apply negb_true_iff, bool_decide_eq_false_2.
    intros [?|[?|?]%elem_of_cons]%elem_of_cons; done.
Qed.

Lemma lookupValue_stored (functionInputs : gmap string (gmap string string)) f p :
  lookupValue (default ∅ (functionInputs !! f)) p
  = match stored functionInputs f p with
    | Some value => Text value
    | None =>
        if truthy (objectPrototype p) then Inherited (objectPrototype p)
        else Text ""
    end.
Proof.
  unfold lookupValue, stored. by destruct (functionInputs !! f).
Qed.

End FormState.

(** C9: the writes are as the claim says, whatever the names: an edit
    stores its value under its function and parameter and leaves every
    other stored value as it was, so that after any sequence of edits the
    value stored for a parameter is the one of the most recent edit
    addressed to it.  The reads are not: [functionInputs[functionName] ||
    {}] and [inputs[name] || ""] continue in [Object.prototype], so the
    inputs object of a function no edit addressed is the built-in
    [Object.prototype.toString] when the function is called [toString],
    and a parameter called [valueOf] that was never edited reads as the
    built-in function of that name: invoking a function with an integer
    parameter of that name from an empty form is recorded as failed, with
    an empty [inputs] snapshot. *)
Theorem getInputs_untouched_inherits :
  (∀ s functionName inputName value f p,
      (handleInputChange functionName inputName value s).1 = Normal tt
      ∧ stored (functionInputs (handleInputChange functionName inputName value s).2)
          f p
        = (if bool_decide (functionName = f ∧ inputName = p) then Some value
           else stored (functionInputs s) f p)
      ∧ bool_decide (is_Some
          (functionInputs (handleInputChange functionName inputName value s).2 !! f))
        = bool_decide (functionName = f)
          || bool_decide (is_Some (functionInputs s !! f)))
  ∧ (∀ calls f p,
      stored (functionInputs (setInputs calls initialState)) f p
      = lastStored calls f p)
  ∧ (∀ calls f,
      getInputs (functionInputs (setInputs calls initialState)) f
      = if touched calls f
        then Record (default ∅ (functionInputs (setInputs calls initialState) !! f))
        else if truthy (objectPrototype f) then Builtin (objectPrototype f)
        else Record ∅)
  ∧ (∀ calls f p,
      lookupValue (default ∅ (functionInputs (setInputs calls initialState) !! f)) p
      = match lastStored calls f p with
        | Some value => Text value
        | None =>
            if truthy (objectPrototype p) then Inherited (objectPrototype p)
            else Text ""
        end)
  ∧ (∀ key,
      truthy (objectPrototype key)
      = bool_decide (key ∈ ["constructor"; "__proto__";
                            "hasOwnProperty"; "isPrototypeOf";
                            "propertyIsEnumerable"; "toLocaleString";
                            "toString"; "valueOf";
                            "__defineGetter__"; "__defineSetter__";
                            "__lookupGetter__"; "__lookupSetter__"]))
  ∧ getInputs (functionInputs (setInputs [] initialState)) "toString"
    = Builtin (VFunction "toString")
  ∧ getInputs (functionInputs (setInputs [("mint", "to", "0xabc")] initialState))
      "valueOf"
    = Builtin (VFunction "valueOf")
  ∧ getInputs (functionInputs (setInputs [("mint", "to", "0xabc")] initialState))
      "burn"
    = Record ∅
  ∧ lookupValue
      (snapshot
         (getInputs (functionInputs (setInputs [("mint", "to", "0xabc")] initialState))
            "mint")) "valueOf"
    = Inherited (VFunction "valueOf")
  ∧ functionResults
      (after sampleEnv
         (ExecuteFunction
            (ContractFunction.make "burn" "function" "nonpayable"
               [AbiInput.make "valueOf" "uint256" None] []))
         connectedState)
    = [ {| functionName := "burn"; inputs := ∅;
           result := VNull; error := Some "invalid BigNumberish value";
           gasUsed := None; transactionHash := None;
           timestamp := 1700000000000 |} ].
Proof.
  split; [|split; [|split; [|split; [|split]]]].
  - intros s functionName inputName value f p.
    split; [done|]. split; [apply stored_after_change|].
    rewrite handleInputChange_run; simpl.
    destruct (decide (functionName = f)) as [->|Hf].
    + rewrite lookup_insert_eq, (bool_decide_eq_true_2 (f = f)) by done.
      by apply bool_decide_eq_true_2.
    + rewrite lookup_insert_ne by done.
      by rewrite (bool_decide_eq_false_2 (functionName = f)).
  - intros calls f p. rewrite stored_setInputs.
    by destruct (lastStored calls f p).
  - intros calls f.
    pose proof (functionInputs_touched calls initialState f) as Hsome.
    rewrite orb_false_r in Hsome.
    unfold getInputs. destruct (touched calls f).
    + apply bool_decide_eq_true_1 in Hsome as [own ->]. done.
    + apply bool_decide_eq_false_1 in Hsome.
      destruct (functionInputs (setInputs calls initialState) !! f) as [own|];
        [|done].
      by destruct Hsome.
  - intros calls f p. rewrite lookupValue_stored, stored_setInputs.
    by destruct (lastStored calls f p).
  - intros key. pose proof (inheritsNothing_members key) as Hkey.
    unfold inheritsNothing in Hkey.
    destruct (truthy (objectPrototype key)), (bool_decide _); done.
  - repeat split; vm_compute; reflexivity.
Qed.

(** ** Reasoning about operations

    A preorder respected by every write of an operation is respected by the
    operation. *)

Section Respects.

Variable R : relation State.
Context `{!PreOrder R}.

Lemma respects_ret {A} (a : A) : respects R (mret a).
Proof. intros s. reflexivity. Qed.

Lemma respects_throw {A} message : respects R (@throw A message).
Proof. intros s. reflexivity. Qed.

Lemma respects_get : respects R get.
Proof. intros s. reflexivity. Qed.

Lemma respects_liftC {A} (c : Completion A) : respects R (liftC c).
Proof. intros s. reflexivity. Qed.

Lemma respects_update f : (∀ s, R s (f s)) → respects R (update f).
Proof. intros Hf s. apply Hf. Qed.

Lemma respects_bind {A B} (m : M A) (k : A → M B) :
  respects R m → (∀ a, respects R (k a)) → respects R (m ≫= k).
Proof.
  intros Hm Hk s. unfold mbind, M_bind, bind.
  specialize (Hm s). destruct (m s) as [[a|message] s']; simpl in *; [|done].
  by etrans; [|apply Hk].
Qed.

Lemma respects_tryCatch {A} (body : M A) handler :
  respects R body → (∀ message, respects R (handler message)) →
  respects R (tryCatch body handler).
Proof.
  intros Hbody Hhandler s. unfold tryCatch.
  specialize (Hbody s). destruct (body s) as [[a|message] s']; simpl in *;
    [done|]. by etrans; [|apply Hhandler].
Qed.

Lemma respects_tryFinally {A} (body : M A) finalizer :
  respects R body → respects R finalizer → respects R (tryFinally body finalizer).
Proof.
  intros Hbody Hfinalizer s. unfold tryFinally.
  specialize (Hbody s). destruct (body s) as [c s']; simpl in *.
  specialize (Hfinalizer s').
  destruct (finalizer s') as [[[]|message] s'']; simpl in *; by etrans.
Qed.

End Respects.

Create HintDb respects discriminated.
#[export] Hint Resolve respects_ret respects_throw respects_get respects_liftC
  respects_bind respects_tryCatch respects_tryFinally respects_update : respects.

#[export] Instance logResets_preorder : PreOrder logResets.
Proof.
  split; [by left|]. intros s1 s2 s3 [H12|H12] [H23|H23]; unfold logResets;
    rewrite ?H23, ?H12; auto.
Qed.

Section Connection.

Variable env : Env.
Variable R : relation State.
Context `{!PreOrder R}.

(** [R] is respected by every setter that leaves the result log alone or
    empties it. *)
Hypothesis R_write : ∀ f s,
  (∀ log, f log = log ∨ f log = []) → R s (setFunctionResults f s).
Hypothesis R_connectionError : ∀ f s, R s (setConnectionError f s).
Hypothesis R_connectingWallet : ∀ f s, R s (setConnectingWallet f s).
Hypothesis R_wallet : ∀ f s, R s (setWallet f s).
Hypothesis R_walletAddress : ∀ f s, R s (setWalletAddress f s).
Hypothesis R_parsedAbi : ∀ f s, R s (setParsedAbi f s).
Hypothesis R_expandedFunctions : ∀ f s, R s (setExpandedFunctions f s).
Hypothesis R_latest : ∀ f s, R s (setLatestFunctionResults f s).
Hypothesis R_contract : ∀ f s, R s (setContract f s).
Hypothesis R_isConnected : ∀ f s, R s (setIsConnected f s).

Lemma connectBrowserWallet_respects : respects R (connectBrowserWallet env).
Proof.
  unfold connectBrowserWallet.
  destruct (windowEthereum env); simpl; auto 10 with respects.
Qed.

Lemma connectPrivateKey_respects key url :
  respects R (connectPrivateKey env key url).
Proof. unfold connectPrivateKey. auto 10 with respects. Qed.

Lemma connectToContract_respects : respects R (connectToContract env).
Proof.
  unfold connectToContract.
  apply (respects_bind R); [apply (respects_get R)|]. intros s0.
  apply (respects_tryCatch R); [|auto with respects].
  apply (respects_bind R); [auto with respects|]. intros _.
  destruct (currentContractData s0) as [[contractAddress contractAbi]|];
    [|apply (respects_throw R)].
  apply (respects_bind R).
  - destruct (authMethod s0); [|apply connectBrowserWallet_respects].
    destruct (String.eqb (privateKey s0) "");
      [apply (respects_throw R)|apply connectPrivateKey_respects].
  - intros r. apply (respects_bind R); [apply (respects_liftC R)|].
    intros functions.
    do 3 (apply (respects_bind R); [auto with respects|]; intros _).
    apply (respects_bind R); [|intros _; auto 10 with respects].
    apply (respects_update R). intros s. apply R_write. auto.
Qed.

End Connection.

(** ** Result log *)

Section ResultLog.

Variable env : Env.

Lemma executeFunction_log func s :
  functionResults (after env (ExecuteFunction func) s) = functionResults s
  ∨ ∃ functionResult,
      functionResults (after env (ExecuteFunction func) s)
      = functionResult :: functionResults s.
Proof.
  unfold after; simpl.
  destruct (contract s) as [c|] eqn:Hc; [destruct (wallet s) as [w|] eqn:Hw|].
  - right. rewrite (executeFunction_connected env func s c w Hc Hw).
    by eexists.
  - left. by rewrite (executeFunction_idle env func s (or_intror Hw)).
  - left. by rewrite (executeFunction_idle env func s (or_introl Hc)).
Qed.

Lemma connectToContract_log s :
  functionResults (after env ConnectToContract s) = functionResults s
  ∨ functionResults (after env ConnectToContract s) = [].
Proof.
  apply (connectToContract_respects env logResets);
    try (intros f st; by left).
  intros f st Hf. unfold logResets; simpl.
  destruct (Hf (functionResults st)) as [-> | ->]; auto.
Qed.

Lemma other_actions_log a s :
  (∀ func, a ≠ ExecuteFunction func) → a ≠ ConnectToContract →
  functionResults (after env a s) = functionResults s.
Proof.
  intros Hexec Hconn. unfold after.
  destruct a; simpl; try done.
  - unfold loadContractFiles, mbind, M_bind, bind, tryFinally, tryCatch,
      update, liftC; simpl.
    by destruct (getContracts env).
  - unfold handleContractSelection, mbind, M_bind, bind, get.
    by destruct (find _ _).
  - by destruct (Hexec func).
Qed.

End ResultLog.

(** C4 (as the code has it): [executeFunction] puts one new record in
    front of the result log or leaves it alone, [connectToContract] leaves
    it alone or empties it, and no other operation changes it; so in a
    session without [connectToContract] the log at the start is a suffix of
    the log at the end: no entry is removed, reordered or modified. *)
Theorem result_log_prepend_or_reset :
  (∀ env a s,
      functionResults (after env a s) = functionResults s
      ∨ (∃ func functionResult,
            a = ExecuteFunction func
            ∧ functionResults (after env a s) = functionResult :: functionResults s)
      ∨ (a = ConnectToContract ∧ functionResults (after env a s) = []))
  ∧ (∀ steps s,
      Forall (λ step : Env * Action, step.2 ≠ ConnectToContract) steps →
      functionResults s `suffix_of` functionResults (session steps s)).
Proof.
  assert (Hstep : ∀ env a s,
      functionResults (after env a s) = functionResults s
      ∨ (∃ func functionResult,
            a = ExecuteFunction func
            ∧ functionResults (after env a s) = functionResult :: functionResults s)
      ∨ (a = ConnectToContract ∧ functionResults (after env a s) = [])).
  { intros env a s.
    destruct a;
      try (left; apply other_actions_log; [by intros ? [=]|by intros [=]]).
    - destruct (connectToContract_log env s) as [H|H]; [by left|].
      right; right. done.
    - destruct (executeFunction_log env func s) as [H|[functionResult H]];
        [by left|]. right; left. by exists func, functionResult. }
  split; [exact Hstep|].
  intros steps. induction steps as [|[env a] steps IH] using rev_ind;
    intros s Hsteps; [done|].
  apply Forall_app in Hsteps as [Hsteps Hlast%Forall_inv]. simpl in Hlast.
  unfold session in *. rewrite foldl_app; simpl.
  specialize (IH s Hsteps).
  destruct (Hstep env a (foldl (λ st step, after step.1 step.2 st) s steps))
    as [H|[(func & functionResult & _ & H)|[-> _]]].
  - by rewrite H.
  - rewrite H. by apply suffix_cons_r.
  - done.
Qed.

Lemma result_log_prepend_or_reset_witness :
  functionResults connectedState
  `suffix_of`
  functionResults
    (session [(sampleEnv, HandleInputChange "mint" "amount" "5");
              (sampleEnv, ExecuteFunction mint);
              (sampleEnv, ExecuteFunction totalSupply)] connectedState).
Proof.
  apply (proj2 result_log_prepend_or_reset).
  repeat constructor; simpl; discriminate.
Defined.

(** C4 fails as stated: connecting again empties a log that holds a
    record. *)
Lemma result_log_cleared_by_reconnect :
  length (functionResults stateWithHistory) = 1%nat
  ∧ functionResults (after sampleEnv ConnectToContract stateWithHistory) = []
  ∧ ¬ (functionResults stateWithHistory
       `suffix_of`
       functionResults (after sampleEnv ConnectToContract stateWithHistory)).
Proof.
  assert (H : functionResults (after sampleEnv ConnectToContract stateWithHistory)
              = []) by (vm_compute; reflexivity).
  split; [vm_compute; reflexivity|]. split; [exact H|].
  rewrite H. intros Hsuffix%suffix_nil_inv.
  apply (f_equal length) in Hsuffix. vm_compute in Hsuffix. discriminate.
Qed.

(** ** ABI function extractor *)

Section Extractor.

Lemma isFunctionEntry_tag item :
  isNullish item = false → isFunctionEntry item = Normal (hasFunctionTag item).
Proof.
  destruct item as [| | | | | |items|props|name]; try done.
  intros _. unfold isFunctionEntry, hasFunctionTag; simpl.
  by destruct (assoc "type" props) as [[]|].
Qed.

Lemma filterC_total {A} (p : A → Completion bool) (q : A → bool) l :
  Forall (λ x, p x = Normal (q x)) l →
  filterC p l = Normal (filter (λ x, q x = true) l).
Proof.
  induction 1 as [|x l Hx Hl IH]; [done|]. simpl.
  rewrite Hx, IH; simpl. rewrite filter_cons.
  destruct (q x); by case_decide.
Qed.

Lemma sublist_filter_greatest {A} (P : A → Prop) `{!∀ x, Decision (P x)}
    (k l : list A) :
  k `sublist_of` l → Forall P k → k `sublist_of` filter P l.
Proof.
  induction 1 as [|x k l Hkl IH|x k l Hkl IH]; intros Hk.
  - done.
  - apply Forall_cons in Hk as [Hx Hk].
    rewrite filter_cons_True by done. by apply sublist_skip, IH.
  - rewrite filter_cons. case_decide; [apply sublist_cons|]; by apply IH.
Qed.

End Extractor.

(** C7: on an ABI document, an array with no null entry, the extractor
    returns the entries tagged [function] and nothing else, in their
    original order: its result is a subsequence of the document, holds only
    [function] entries, and contains every subsequence of the document made
    of [function] entries.  It is a function of the document alone. *)
Theorem extractFunctions_exact (items : list Value) :
  Forall (λ item, isNullish item = false) items →
  ∃ functions,
    extractFunctions (VArray items) = Normal functions
    ∧ functions = filter (λ item, hasFunctionTag item = true) items
    ∧ functions `sublist_of` items
    ∧ (∀ item, item ∈ functions ↔ item ∈ items ∧ hasFunctionTag item = true)
    ∧ (∀ k, k `sublist_of` items →
            Forall (λ item, hasFunctionTag item = true) k →
            k `sublist_of` functions).
Proof.
  intros Hitems. eexists. split; [|split; [reflexivity|]].
  - simpl. apply filterC_total.
    eapply Forall_impl; [exact Hitems|]. apply isFunctionEntry_tag.
  - split; [apply sublist_filter|]. split.
    + intros item. rewrite list_elem_of_filter. tauto.
    + intros k. apply sublist_filter_greatest.
Qed.

Lemma extractFunctions_exact_witness :
  ∃ functions,
    extractFunctions tokenAbi = Normal functions
    ∧ functionNames functions = {["totalSupply"; "mint"]}.
Proof.
  destruct (extractFunctions_exact
              [ VObject [("type", VString "constructor"); ("inputs", VArray [])];
                VObject [("type", VString "function");
                         ("name", VString "totalSupply");
                         ("stateMutability", VString "view");
                         ("inputs", VArray [])];
                VObject [("type", VString "event"); ("name", VString "Transfer")];
                VObject [("type", VString "function"); ("name", VString "mint");
                         ("stateMutability", VString "nonpayable")];
                VObject [("type", VString "error"); ("name", VString "NotOwner")] ])
    as (functions & Hrun & Hfilter & _).
  { repeat constructor. }
  exists functions. split; [exact Hrun|].
  rewrite Hfilter. vm_compute. reflexivity.
Defined.

(** ** Catalog loader *)

Section Catalog.

Variable env : Env.

Lemma loadFiles_acc fileNames contracts warnings :
  loadFiles env fileNames contracts warnings
  = ((contracts ++ omap (accepted env) fileNames)%list,
     (warnings ++ omap (warned env) fileNames)%list).
Proof.
  revert contracts warnings.
  induction fileNames as [|fileName rest IH]; intros contracts warnings; simpl.
  - by rewrite !app_nil_r.
  - unfold accepted at 1, warned at 1.
    destruct (loadFile env fileName); rewrite IH; by rewrite <- ?app_assoc.
Qed.

Lemma loadFile_accepted fileName file :
  loadFile env fileName = Accepted file ↔
  ∃ contractData fileAddress fileAbi,
    fetchContract env fileName = JsonResolves contractData
    ∧ getProp contractData "address" = Normal fileAddress
    ∧ truthy fileAddress = true
    ∧ getProp contractData "abi" = Normal fileAbi
    ∧ truthy fileAbi = true
    ∧ file = {| name := displayName fileName;
                address := fileAddress; abi := fileAbi |}.
Proof.
  unfold loadFile. split.
  - destruct (fetchContract env fileName) as [| | |contractData]; try done.
    destruct (getProp contractData "address") as [fileAddress|] eqn:Ha;
      [|done].
    destruct (truthy fileAddress) eqn:Hta; [|done].
    destruct (getProp contractData "abi") as [fileAbi|] eqn:Hb; [|done].
    destruct (truthy fileAbi) eqn:Htb; [|done].
    intros [= <-]. by exists contractData, fileAddress, fileAbi.
  - intros (contractData & fileAddress & fileAbi & -> & -> & -> & -> & -> & ->).
    done.
Qed.

Lemma loadFile_missing_field fileName props :
  fetchContract env fileName = JsonResolves (VObject props) →
  assoc "address" props = None ∨ assoc "abi" props = None →
  loadFile env fileName = Skipped.
Proof.
  intros Hfetch Hmissing. unfold loadFile. rewrite Hfetch; simpl.
  destruct Hmissing as [-> | ->]; simpl; [done|].
  by destruct (truthy _).
Qed.

Lemma loadContractFiles_run s :
  loadContractFiles env s
  = (Normal tt,
     setLoadingContracts (λ _, false)
       match getContracts env with
       | Normal fileNames =>
           setContractFiles (λ _, omap (accepted env) fileNames)
             (setLoadingContracts (λ _, true) s)
       | Throw _ => setLoadingContracts (λ _, true) s
       end).
Proof.
  unfold loadContractFiles, mbind, M_bind, bind, tryFinally, tryCatch,
    update, liftC; simpl.
  destruct (getContracts env) as [fileNames|message]; simpl; [|done].
  by rewrite loadFiles_acc.
Qed.

End Catalog.

(** C3 (as the code has it): a file enters the catalog exactly when its
    response is ok, its body parses, and the document's [address] and [abi]
    are both truthy; the catalog is the list of entries of the accepted
    files, in directory order, so a file that is not accepted never appears
    and takes no sibling with it; a document without [address] or without
    [abi] is skipped; a warning is logged exactly for the files whose fetch
    or parse throws; and the load itself never throws. *)
Theorem catalog_loader_accepts_truthy :
  (∀ env fileName file,
      accepted env fileName = Some file ↔
      ∃ contractData fileAddress fileAbi,
        fetchContract env fileName = JsonResolves contractData
        ∧ getProp contractData "address" = Normal fileAddress
        ∧ truthy fileAddress = true
        ∧ getProp contractData "abi" = Normal fileAbi
        ∧ truthy fileAbi = true
        ∧ file = {| name := displayName fileName;
                    address := fileAddress; abi := fileAbi |})
  ∧ (∀ env fileNames,
      loadFiles env fileNames [] []
      = (omap (accepted env) fileNames, omap (warned env) fileNames))
  ∧ (∀ env before fileName rest,
      accepted env fileName = None →
      (loadFiles env (before ++ fileName :: rest)%list [] []).1
      = (loadFiles env (before ++ rest)%list [] []).1)
  ∧ (∀ env fileName props,
      fetchContract env fileName = JsonResolves (VObject props) →
      assoc "address" props = None ∨ assoc "abi" props = None →
      accepted env fileName = None ∧ warned env fileName = None)
  ∧ (∀ env fileName message,
      warned env fileName = Some (fileName, message) ↔
      fetchContract env fileName = FetchRejects message
      ∨ fetchContract env fileName = JsonRejects message
      ∨ ∃ contractData,
          fetchContract env fileName = JsonResolves contractData
          ∧ getProp contractData "address" = Throw message)
  ∧ (∀ env s,
      (perform env LoadContractFiles s).1 = Normal tt
      ∧ contractFiles (after env LoadContractFiles s)
        = match getContracts env with
          | Normal fileNames => omap (accepted env) fileNames
          | Throw _ => contractFiles s
          end).
Proof.
  split; [|split; [|split; [|split; [|split]]]].
  - intros env fileName file. rewrite <- loadFile_accepted. unfold accepted.
    destruct (loadFile env fileName); split; congruence.
  - intros env fileNames. by rewrite loadFiles_acc.
  - intros env before fileName rest Hskip.
    rewrite !loadFiles_acc; simpl. rewrite !omap_app; simpl. by rewrite Hskip.
  - intros env fileName props Hfetch Hmissing. unfold accepted, warned.
    by rewrite (loadFile_missing_field env fileName props Hfetch Hmissing).
  - intros env fileName message. unfold warned, loadFile.
    destruct (fetchContract env fileName) as [m| |m|contractData].
    + split; [intros [= ->]; by left|].
      intros [[= ->]|[[=]|(? & [=] & _)]]. done.
    + split; [done|]. intros [[=]|[[=]|(? & [=] & _)]].
    + split; [intros [= ->]; right; by left|].
      intros [[=]|[[= ->]|(? & [=] & _)]]. done.
    + split.
      * destruct (getProp contractData "address") as [fileAddress|m] eqn:Ha.
        -- destruct (truthy fileAddress); [|done].
           destruct contractData; try done; simpl in *.
           by destruct (truthy _).
        -- intros [= ->]. right; right. by exists contractData.
      * intros [[=]|[[=]|(? & [= <-] & ->)]]. done.
  - intros env s. unfold after; simpl. rewrite loadContractFiles_run.
    split; [done|]. by destruct (getContracts env).
Qed.

Lemma catalog_loader_accepts_truthy_witness :
  (loadFiles sampleEnv ["my-token.json"; "no-abi.json"; "odd-abi.json"] [] []).1
  = (loadFiles sampleEnv ["my-token.json"; "odd-abi.json"] [] []).1
  ∧ accepted sampleEnv "no-abi.json" = None.
Proof.
  destruct catalog_loader_accepts_truthy as (_ & _ & Hsibling & Hmissing & _).
  assert (H : accepted sampleEnv "no-abi.json" = None
              ∧ warned sampleEnv "no-abi.json" = None).
  { apply (Hmissing sampleEnv "no-abi.json" [("address", tokenAddress)]);
      [reflexivity | right; reflexivity]. }
  split; [|exact (proj1 H)].
  exact (Hsibling sampleEnv ["my-token.json"] "no-abi.json" ["odd-abi.json"]
           (proj1 H)).
Defined.

(** C3 fails as stated: a descriptor whose [abi] is a string is accepted
    and shows up in the loaded catalog, and a descriptor without [abi] is
    skipped without any warning. *)
Lemma catalog_accepts_non_array_abi :
  ∃ file,
    accepted sampleEnv "odd-abi.json" = Some file
    ∧ isArray (abi file) = false
    ∧ contractFiles (after sampleEnv LoadContractFiles initialState) !! 1%nat
      = Some file
    ∧ accepted sampleEnv "no-abi.json" = None
    ∧ warned sampleEnv "no-abi.json" = None.
Proof.
  exists {| name := "Odd Abi"; address := tokenAddress;
            abi := VString "see the docs" |}.
  repeat split; vm_compute; reflexivity.
Qed.

(** ** One level of formatting *)

(** C2 (as the code has it): formatting turns a bigint into its decimal
    numeral when it is the result itself, an immediate element of a result
    that is an array, or an immediate property value of a result that is a
    record; keys, order and every other immediate member are kept as they
    are, a member that is itself an array or a record is not entered, and
    every other result is returned unchanged.  On a result with no bigint
    below its immediate members this is the recursive normalization of the
    specification, and no bigint is left. *)
Theorem formatResult_one_level :
  (∀ n, formatResult (VBigInt n) = VString (bigintToString n))
  ∧ (∀ items, ∃ items',
        formatResult (VArray items) = VArray items'
        ∧ length items' = length items
        ∧ ∀ i item, items !! i = Some item →
            items' !! i = Some (match item with
                                | VBigInt n => VString (bigintToString n)
                                | _ => item
                                end))
  ∧ (∀ props, ∃ props',
        formatResult (VObject props) = VObject props'
        ∧ props'.*1 = props.*1
        ∧ ∀ i key value, props !! i = Some (key, value) →
            props' !! i = Some (key, match value with
                                     | VBigInt n => VString (bigintToString n)
                                     | _ => value
                                     end))
  ∧ (∀ v, isBigInt v = false → isArray v = false →
          (∀ props, v ≠ VObject props) → formatResult v = v)
  ∧ (∀ v, nestsBigInt v = false →
          formatResult v = normalizeDeep v
          ∧ containsBigInt (formatResult v) = false).
Proof.
  split; [done|]. split; [|split; [|split; [|exact formatResult_deep]]].
  - intros items. exists (map formatItem items). split; [done|].
    split; [by rewrite length_map|].
    intros i item Hi. by rewrite list_lookup_fmap, Hi.
  - intros props.
    exists (map (λ '(key, value), (key, formatItem value)) props).
    split; [done|]. split.
    + induction props as [|[key value] props IH]; [done|]. simpl. by f_equal.
    + intros i key value Hi. by rewrite list_lookup_fmap, Hi.
  - intros v Hbig Harr Hobj. destruct v; try done. by destruct (Hobj props).
Qed.

Lemma formatResult_one_level_witness :
  formatResult (VString "0x") = VString "0x"
  ∧ formatResult
      (VObject [("a", VBigInt 123456789012345678901234567890);
                ("b", VString "x")])
    = normalizeDeep
        (VObject [("a", VBigInt 123456789012345678901234567890);
                  ("b", VString "x")]).
Proof.
  destruct formatResult_one_level as (_ & _ & _ & Hother & Hdeep).
  split.
  - apply Hother; [reflexivity..|]. intros props [=].
  - apply Hdeep. reflexivity.
Defined.

(** C2 fails as stated: a bigint inside an array inside the result is
    returned as a bigint, where the recursive normalization of the
    specification gives its numeral. *)
Lemma formatResult_misses_nested_bigint :
  formatResult (VArray [VArray [VBigInt 7]; VBigInt 8])
  = VArray [VArray [VBigInt 7]; VString "8"]
  ∧ containsBigInt (formatResult (VArray [VArray [VBigInt 7]; VBigInt 8])) = true
  ∧ normalizeDeep (VArray [VArray [VBigInt 7]; VBigInt 8])
    = VArray [VArray [VString "7"]; VString "8"]
  ∧ formatResult (VArray [VArray [VBigInt 7]; VBigInt 8])
    ≠ normalizeDeep (VArray [VArray [VBigInt 7]; VBigInt 8]).
Proof.
  repeat split; try reflexivity. intros [=].
Qed.

(** ** Numerals *)

Section Numerals.









End Numerals.

(** ** Coercion *)

Section Coercion.

Variable env : Env.
Variable inputs : gmap string string.

Lemma prefix_includes needle hay :
  String.prefix needle hay = true → includes needle hay = true.
Proof. intros H. destruct hay; cbn [includes]; by rewrite H. Qed.

Lemma lookupValue_own name value :
  inputs !! name = Some value → lookupValue inputs name = Text value.
Proof. intros H. unfold lookupValue. by rewrite H. Qed.


Lemma lookupValue_inherited name :
  inputs !! name = None → inheritsNothing name = false →
  lookupValue inputs name = Inherited (objectPrototype name).
Proof.
  intros H Hname. unfold lookupValue. rewrite H.
  apply negb_false_iff in Hname. by rewrite Hname.
Qed.

Lemma coerceInput_integer input :
  isIntegerType (AbiInput.type input) = true →
  coerceInput env inputs input
  = match lookupValue inputs (AbiInput.name input) with
    | Text EmptyString => Normal (VBigInt 0)
    | Text value => cbind (getBigInt env value) (λ n, Normal (VBigInt n))
    | Inherited _ => Throw "invalid BigNumberish value"
    end.
Proof.
  intros Hty. unfold coerceInput.
  assert (includes "uint" (AbiInput.type input)
          || includes "int" (AbiInput.type input) = true) as ->.
  { unfold isIntegerType in Hty.
    apply orb_prop in Hty as [H|H]; rewrite (prefix_includes _ _ H);
      [done|apply orb_true_r]. }
  destruct (lookupValue inputs (AbiInput.name input)) as [[|c value]|]; done.
Qed.

Lemma coerceInput_bool input :
  AbiInput.type input = "bool" →
  coerceInput env inputs input
  = match lookupValue inputs (AbiInput.name input) with
    | Text value => Normal (VBool (String.eqb (toLowerCase value) "true"))
    | Inherited _ => Throw "value.toLowerCase is not a function"
    end.
Proof. intros Hty. unfold coerceInput. by rewrite Hty. Qed.

(** The sibling path: an array type that does not mention [int]. *)
Lemma coerceInput_array input :
  includes "uint" (AbiInput.type input) = false →
  includes "int" (AbiInput.type input) = false →
  AbiInput.type input ≠ "bool" →
  includes "[]" (AbiInput.type input) = true →
  coerceInput env inputs input
  = match lookupValue inputs (AbiInput.name input) with
    | Text value =>
        match JSON_parse env (if String.eqb value "" then "[]" else value) with
        | Normal v => Normal v
        | Throw _ => Normal (VArray [])
        end
    | Inherited _ => Normal (VArray [])
    end.
Proof.
  intros Hu Hi Hb Ha. unfold coerceInput. rewrite Hu, Hi, Ha; simpl.
  by destruct (String.eqb_spec (AbiInput.type input) "bool") as [H|_].
Qed.

End Coercion.



(** C1 on the code: a parameter of type [uint256[]] takes the integer
    branch.  Its raw string goes to the integer parser and never to
    [JSON.parse]: [[1,2,3]] and [not-json] both make coercion throw, an
    empty input becomes the integer zero, and no input coerces to an array;
    the same inputs under the type [address[]] reach the array branch.
    End to end, invoking a function that takes a [uint256[]] with the input
    [[1,2,3]] is recorded as a failed invocation. *)
Theorem coerceInput_integer_array_takes_integer_branch :
  (∀ env,
      coerceInput (withEthers env) {["ids" := "[1,2,3]"]}
        (AbiInput.make "ids" "uint256[]" None)
      = Throw "invalid BigNumberish string")
  ∧ (∀ env,
      coerceInput (withEthers env) {["ids" := "not-json"]}
        (AbiInput.make "ids" "uint256[]" None)
      = Throw "invalid BigNumberish string")
  ∧ (∀ env inputs,
      coerceInput env inputs (AbiInput.make "ids" "uint256[]" None)
      = match inputs !! "ids" with
        | None | Some EmptyString => Normal (VBigInt 0)
        | Some value => cbind (getBigInt env value) (λ n, Normal (VBigInt n))
        end)
  ∧ (∀ env inputs,
      coerceInput env inputs (AbiInput.make "ids" "uint256[]" None)
      ≠ Normal (VArray [number 1; number 2; number 3])
      ∧ coerceInput env inputs (AbiInput.make "ids" "uint256[]" None)
        ≠ Normal (VArray []))
  ∧ coerceInput sampleEnv {["ids" := "[1,2,3]"]}
      (AbiInput.make "ids" "address[]" None)
    = Normal (VArray [number 1; number 2; number 3])
  ∧ coerceInput sampleEnv {["ids" := "not-json"]}
      (AbiInput.make "ids" "address[]" None)
    = Normal (VArray [])
  ∧ functionResults
      (session [(sampleEnv, HandleInputChange "sumOf" "ids" "[1,2,3]");
                (sampleEnv, ExecuteFunction sumOf)] connectedState)
    = [ {| functionName := "sumOf"; inputs := {["ids" := "[1,2,3]"]};
           result := VNull; error := Some "invalid BigNumberish string";
           gasUsed := None; transactionHash := None;
           timestamp := 1700000000000 |} ].
Proof.
  assert (Hbranch : ∀ env inputs,
      coerceInput env inputs (AbiInput.make "ids" "uint256[]" None)
      = match inputs !! "ids" with
        | None | Some EmptyString => Normal (VBigInt 0)
        | Some value => cbind (getBigInt env value) (λ n, Normal (VBigInt n))
        end).
  { intros env inputs. rewrite coerceInput_integer by reflexivity.
    unfold lookupValue. simpl AbiInput.name.
    by destruct (inputs !! "ids") as [[|c value]|]. }
  split; [|split; [|split; [exact Hbranch|split; [|split; [|split]]]]].
  - intros env. by rewrite Hbranch.
  - intros env. by rewrite Hbranch.
  - intros env inputs. rewrite Hbranch.
    destruct (inputs !! "ids") as [[|c value]|]; simpl; try done.
    by destruct (getBigInt env (String c value)).
  - reflexivity.
  - reflexivity.
  - vm_compute. reflexivity.
Qed.

(** ** Connection handler *)

Section ConnectionRun.

Variable env : Env.

Lemma connectBrowserWallet_run s :
  connectBrowserWallet env s
  = if windowEthereum env then
      match requestBrowserSigner env with
      | Normal r =>
          (Normal r,
           setConnectingWallet (λ _, false)
             (setWalletAddress (λ _, r.2)
                (setWallet (λ _, Some r.1) (setConnectingWallet (λ _, true) s))))
      | Throw message =>
          (Throw ("Failed to connect wallet: " +:+ message),
           setConnectingWallet (λ _, false) (setConnectingWallet (λ _, true) s))
      end
    else
      (Throw "No browser wallet found. Please install MetaMask or another wallet extension.",
       s).
Proof.
  unfold connectBrowserWallet.
  destruct (windowEthereum env); simpl; [|done].
  unfold mbind, M_bind, bind, tryFinally, tryCatch, update, liftC; simpl.
  by destruct (requestBrowserSigner env).
Qed.

Lemma connectPrivateKey_run key url s :
  connectPrivateKey env key url s
  = match walletFromKey env key url with
    | Normal r =>
        (Normal r,
         setConnectingWallet (λ _, false)
           (setWalletAddress (λ _, r.2)
              (setWallet (λ _, Some r.1) (setConnectingWallet (λ _, true) s))))
    | Throw message =>
        (Throw ("Invalid private key or RPC URL: " +:+ message),
         setConnectingWallet (λ _, false) (setConnectingWallet (λ _, true) s))
    end.
Proof.
  unfold connectPrivateKey.
  unfold mbind, M_bind, bind, tryFinally, tryCatch, update, liftC; simpl.
  by destruct (walletFromKey env key url).
Qed.

Lemma connectToContract_run s :
  connectToContract env s
  = (Normal tt,
     match validationError env s with
     | Some message => connectionFailed message (setConnectionError (λ _, "") s)
     | None =>
         match currentContractData s with
         | None => s
         | Some (contractAddress, contractAbi) =>
             match walletOracle env s with
             | Throw message =>
                 connectionFailed (walletErrorPrefix (authMethod s) +:+ message)
                   (setConnectingWallet (λ _, false)
                      (setConnectingWallet (λ _, true)
                         (setConnectionError (λ _, "") s)))
             | Normal r =>
                 match extractFunctions contractAbi with
                 | Throw message =>
                     connectionFailed message (walletConnected r s)
                 | Normal functions =>
                     match newContract env contractAddress contractAbi r.1 with
                     | Throw message =>
                         connectionFailed message
                           (abiParsed functions (walletConnected r s))
                     | Normal c =>
                         setIsConnected (λ _, true)
                           (setContract (λ _, Some c)
                              (abiParsed functions (walletConnected r s)))
                     end
                 end
             end
         end
     end).
Proof.
  unfold connectToContract, validationError, walletOracle.
  unfold mbind, M_bind, bind, get, tryCatch, update, throw, liftC.
  destruct (currentContractData s) as [[contractAddress contractAbi]|];
    simpl; [|done].
  destruct (authMethod s); simpl.
  - destruct (String.eqb (privateKey s) ""); simpl; [done|].
    rewrite connectPrivateKey_run.
    destruct (walletFromKey env _ _) as [r|message]; simpl; [|done].
    destruct (extractFunctions contractAbi) as [functions|message]; simpl;
      [|done].
    by destruct (newContract env contractAddress contractAbi r.1).
  - rewrite connectBrowserWallet_run.
    destruct (windowEthereum env); simpl; [|done].
    destruct (requestBrowserSigner env) as [r|message]; simpl; [|done].
    destruct (extractFunctions contractAbi) as [functions|message]; simpl;
      [|done].
    by destruct (newContract env contractAddress contractAbi r.1).
Qed.

End ConnectionRun.

(** X1: when one of the handler's own checks fires (no contract selected,
    private-key method with an empty key, browser method without an injected
    wallet), [connectToContract] completes normally, shows the check's
    message, reports not connected and asks no wallet: the wallet, its
    address, the contract instance, the function list, the history and the
    connecting flag are as before. *)
Theorem connectToContract_validation (env : Env) (s : State) (message : string) :
  validationError env s = Some message →
  (perform env ConnectToContract s).1 = Normal tt
  ∧ connectionError (after env ConnectToContract s) = message
  ∧ isConnected (after env ConnectToContract s) = false
  ∧ wallet (after env ConnectToContract s) = wallet s
  ∧ walletAddress (after env ConnectToContract s) = walletAddress s
  ∧ contract (after env ConnectToContract s) = contract s
  ∧ parsedAbi (after env ConnectToContract s) = parsedAbi s
  ∧ functionResults (after env ConnectToContract s) = functionResults s
  ∧ latestFunctionResults (after env ConnectToContract s)
    = latestFunctionResults s
  ∧ connectingWallet (after env ConnectToContract s) = connectingWallet s.
Proof.
  intros Hcheck. unfold after; simpl.
  rewrite connectToContract_run, Hcheck. repeat split; reflexivity.
Qed.

Lemma connectToContract_validation_witness :
  connectionError (after sampleEnv ConnectToContract initialState)
  = "Please select a contract"
  ∧ wallet (after sampleEnv ConnectToContract initialState) = None.
Proof.
  destruct (connectToContract_validation sampleEnv initialState
              "Please select a contract" eq_refl)
    as (_ & Herror & _ & Hwallet & _).
  exact (conj Herror Hwallet).
Defined.

(** X2: while the Connect button is enabled and the availability flag
    agrees with the page's [window.ethereum], none of the handler's own
    checks fires: a click always reaches the wallet. *)
Theorem connect_button_guards_validation (env : Env) (s : State) :
  connectDisabled s = false →
  browserWalletAvailable s = windowEthereum env →
  validationError env s = None.
Proof.
  unfold connectDisabled, validationError. intros Hbutton Hflag.
  destruct (currentContractData s); [|done].
  destruct (authMethod s); simpl in Hbutton.
  - by destruct (String.eqb (privateKey s) "").
  - rewrite <- Hflag. destruct (connectingWallet s); simpl in Hbutton;
      [done|]. by destruct (browserWalletAvailable s).
Qed.

Lemma connect_button_guards_validation_witness :
  validationError sampleEnv
    (after sampleEnv CheckBrowserWallet tokenSelection) = None.
Proof.
  apply connect_button_guards_validation; vm_compute; reflexivity.
Defined.

(** X3: a connect in which the wallet answers, the ABI filters and the
    contract instance is built ends connected with an empty error: the
    wallet and its address are the wallet's answer, the contract is the new
    instance, the function list is the filtered ABI with every function
    expanded, the history and the latest results are empty, the connecting
    flag is down, and the form inputs are untouched. *)
Theorem connectToContract_success (env : Env) (s : State)
    (contractAddress contractAbi : Value) (r : Signer * string)
    (functions : list Value) (c : ContractInstance) :
  validationError env s = None →
  currentContractData s = Some (contractAddress, contractAbi) →
  walletOracle env s = Normal r →
  extractFunctions contractAbi = Normal functions →
  newContract env contractAddress contractAbi r.1 = Normal c →
  (perform env ConnectToContract s).1 = Normal tt
  ∧ isConnected (after env ConnectToContract s) = true
  ∧ connectionError (after env ConnectToContract s) = ""
  ∧ wallet (after env ConnectToContract s) = Some r.1
  ∧ walletAddress (after env ConnectToContract s) = r.2
  ∧ contract (after env ConnectToContract s) = Some c
  ∧ parsedAbi (after env ConnectToContract s) = functions
  ∧ expandedFunctions (after env ConnectToContract s) = functionNames functions
  ∧ functionResults (after env ConnectToContract s) = []
  ∧ latestFunctionResults (after env ConnectToContract s) = ∅
  ∧ connectingWallet (after env ConnectToContract s) = false
  ∧ functionInputs (after env ConnectToContract s) = functionInputs s.
Proof.
  intros Hcheck Hdata Hwallet Habi Hnew. unfold after; simpl.
  rewrite connectToContract_run, Hcheck, Hdata, Hwallet, Habi, Hnew.
  repeat split; reflexivity.
Qed.

Lemma connectToContract_success_witness :
  isConnected (after sampleEnv ConnectToContract tokenSelection) = true
  ∧ length (parsedAbi (after sampleEnv ConnectToContract tokenSelection)) = 2%nat
  ∧ functionResults (after sampleEnv ConnectToContract tokenSelection) = [].
Proof.
  destruct (connectToContract_success sampleEnv tokenSelection
              tokenAddress tokenAbi (sampleSigner, signerAddress sampleSigner)
              (filter (λ item, hasFunctionTag item = true)
                 match tokenAbi with VArray items => items | _ => [] end)
              sampleContract)
    as (_ & Hconnected & _ & _ & _ & _ & Hparsed & _ & Hlog & _);
    [vm_compute; reflexivity..|].
  split; [exact Hconnected|]. split; [|exact Hlog].
  rewrite Hparsed. vm_compute. reflexivity.
Defined.

(** X4: when the wallet refuses, the error shown is the wallet's message
    behind the prefix of the authentication method, the page is not
    connected, the connecting flag is down again, and the previous wallet,
    contract instance, function list and history stay in place. *)
Theorem connectToContract_wallet_failure (env : Env) (s : State)
    (message : string) :
  validationError env s = None →
  walletOracle env s = Throw message →
  (perform env ConnectToContract s).1 = Normal tt
  ∧ connectionError (after env ConnectToContract s)
    = walletErrorPrefix (authMethod s) +:+ message
  ∧ isConnected (after env ConnectToContract s) = false
  ∧ connectingWallet (after env ConnectToContract s) = false
  ∧ wallet (after env ConnectToContract s) = wallet s
  ∧ walletAddress (after env ConnectToContract s) = walletAddress s
  ∧ contract (after env ConnectToContract s) = contract s
  ∧ parsedAbi (after env ConnectToContract s) = parsedAbi s
  ∧ functionResults (after env ConnectToContract s) = functionResults s
  ∧ latestFunctionResults (after env ConnectToContract s)
    = latestFunctionResults s.
Proof.
  intros Hcheck Hwallet. unfold after; simpl.
  rewrite connectToContract_run, Hcheck, Hwallet.
  unfold validationError in Hcheck.
  destruct (currentContractData s) as [[contractAddress contractAbi]|];
    [|done]. repeat split; reflexivity.
Qed.

Lemma connectToContract_wallet_failure_witness :
  connectionError
    (after (withBrowserSigner (Throw "User rejected the request.") sampleEnv)
       ConnectToContract stateWithHistory)
  = "Failed to connect wallet: User rejected the request."
  ∧ functionResults
      (after (withBrowserSigner (Throw "User rejected the request.") sampleEnv)
         ConnectToContract stateWithHistory)
    = functionResults stateWithHistory.
Proof.
  destruct (connectToContract_wallet_failure
              (withBrowserSigner (Throw "User rejected the request.") sampleEnv)
              stateWithHistory "User rejected the request.")
    as (_ & Herror & _ & _ & _ & _ & _ & _ & Hlog & _);
    [vm_compute; reflexivity..|].
  split; [|exact Hlog]. rewrite Herror. vm_compute. reflexivity.
Defined.

(** X5: when the selected descriptor's [abi] is not an array, a connect in
    which the wallet answers still fails: the error shown is that of the
    missing [filter] method and the page is not connected, but the wallet
    and its address are already those of the answer; the contract instance,
    the function list and the history stay as they were. *)
Theorem connectToContract_abi_not_array (env : Env) (s : State)
    (contractAddress contractAbi : Value) (r : Signer * string) :
  validationError env s = None →
  currentContractData s = Some (contractAddress, contractAbi) →
  walletOracle env s = Normal r →
  isArray contractAbi = false →
  (perform env ConnectToContract s).1 = Normal tt
  ∧ connectionError (after env ConnectToContract s)
    = "currentContractData.abi.filter is not a function"
  ∧ isConnected (after env ConnectToContract s) = false
  ∧ wallet (after env ConnectToContract s) = Some r.1
  ∧ walletAddress (after env ConnectToContract s) = r.2
  ∧ contract (after env ConnectToContract s) = contract s
  ∧ parsedAbi (after env ConnectToContract s) = parsedAbi s
  ∧ functionResults (after env ConnectToContract s) = functionResults s
  ∧ latestFunctionResults (after env ConnectToContract s)
    = latestFunctionResults s.
Proof.
  intros Hcheck Hdata Hwallet Harray. unfold after; simpl.
  rewrite connectToContract_run, Hcheck, Hdata, Hwallet.
  destruct contractAbi; try done; repeat split; reflexivity.
Qed.

Lemma connectToContract_abi_not_array_witness :
  isConnected (after sampleEnv ConnectToContract oddSelection) = false
  ∧ wallet (after sampleEnv ConnectToContract oddSelection) = Some sampleSigner
  ∧ connectionError (after sampleEnv ConnectToContract oddSelection)
    = "currentContractData.abi.filter is not a function".
Proof.
  destruct (connectToContract_abi_not_array sampleEnv oddSelection
              tokenAddress (VString "see the docs")
              (sampleSigner, signerAddress sampleSigner))
    as (_ & Herror & Hconnected & Hwallet & _);
    [vm_compute; reflexivity..|].
  exact (conj Hconnected (conj Hwallet Herror)).
Defined.

(** X6: when building the contract instance throws, the connect fails
    after the point of no return: the page is not connected and shows the
    constructor's message, the old contract instance stays in place, yet the
    function list is already the new one and the history and the latest
    results are already empty. *)
Theorem connectToContract_constructor_failure (env : Env) (s : State)
    (contractAddress contractAbi : Value) (r : Signer * string)
    (functions : list Value) (message : string) :
  validationError env s = None →
  currentContractData s = Some (contractAddress, contractAbi) →
  walletOracle env s = Normal r →
  extractFunctions contractAbi = Normal functions →
  newContract env contractAddress contractAbi r.1 = Throw message →
  (perform env ConnectToContract s).1 = Normal tt
  ∧ connectionError (after env ConnectToContract s) = message
  ∧ isConnected (after env ConnectToContract s) = false
  ∧ contract (after env ConnectToContract s) = contract s
  ∧ wallet (after env ConnectToContract s) = Some r.1
  ∧ parsedAbi (after env ConnectToContract s) = functions
  ∧ functionResults (after env ConnectToContract s) = []
  ∧ latestFunctionResults (after env ConnectToContract s) = ∅.
Proof.
  intros Hcheck Hdata Hwallet Habi Hnew. unfold after; simpl.
  rewrite connectToContract_run, Hcheck, Hdata, Hwallet, Habi, Hnew.
  repeat split; reflexivity.
Qed.

Lemma connectToContract_constructor_failure_witness :
  functionResults
    (after (withNewContract (λ _ _ _, Throw "invalid fragment") sampleEnv)
       ConnectToContract stateWithHistory) = []
  ∧ contract
      (after (withNewContract (λ _ _ _, Throw "invalid fragment") sampleEnv)
         ConnectToContract stateWithHistory)
    = contract stateWithHistory
  ∧ isConnected
      (after (withNewContract (λ _ _ _, Throw "invalid fragment") sampleEnv)
         ConnectToContract stateWithHistory) = false.
Proof.
  destruct (connectToContract_constructor_failure
              (withNewContract (λ _ _ _, Throw "invalid fragment") sampleEnv)
              stateWithHistory tokenAddress tokenAbi
              (sampleSigner, signerAddress sampleSigner)
              (filter (λ item, hasFunctionTag item = true)
                 match tokenAbi with VArray items => items | _ => [] end)
              "invalid fragment")
    as (_ & _ & Hconnected & Hcontract & _ & _ & Hlog & _);
    [vm_compute; reflexivity..|].
  exact (conj Hlog (conj Hcontract Hconnected)).
Defined.

(** X7: [connectToContract] never throws; it leaves the connecting flag
    down whenever it found it down; and whenever it ends connected, the
    error is empty and a wallet and a contract instance are in place. *)
Theorem connectToContract_outcome (env : Env) (s : State) :
  (perform env ConnectToContract s).1 = Normal tt
  ∧ (connectingWallet s = false →
     connectingWallet (after env ConnectToContract s) = false)
  ∧ (isConnected (after env ConnectToContract s) = true →
     connectionError (after env ConnectToContract s) = ""
     ∧ is_Some (wallet (after env ConnectToContract s))
     ∧ is_Some (contract (after env ConnectToContract s))).
Proof.
  unfold after; simpl. rewrite connectToContract_run.
  split; [done|].
  destruct (validationError env s) as [message|] eqn:Hcheck; simpl;
    [by split|].
  unfold validationError in Hcheck.
  destruct (currentContractData s) as [[contractAddress contractAbi]|];
    [clear Hcheck|done].
  destruct (walletOracle env s) as [r|message]; simpl; [|by split].
  destruct (extractFunctions contractAbi) as [functions|message]; simpl;
    [|by split].
  destruct (newContract env contractAddress contractAbi r.1) as [c|message];
    simpl; [|by split].
  split; [done|]. intros _. by repeat split.
Qed.

Lemma connectToContract_outcome_witness :
  connectingWallet (after sampleEnv ConnectToContract tokenSelection) = false
  ∧ connectionError (after sampleEnv ConnectToContract tokenSelection) = "".
Proof.
  destruct (connectToContract_outcome sampleEnv tokenSelection)
    as (_ & Hflag & Hconnected).
  split; [apply Hflag; vm_compute; reflexivity|].
  apply Hconnected. vm_compute. reflexivity.
Defined.

(** ** Sessions *)

Section Sessions.

Lemma session_snoc steps step s :
  session (steps ++ [step]) s = after step.1 step.2 (session steps s).
Proof. unfold session. by rewrite foldl_app. Qed.

Lemma session_invariant (P : State → Prop) :
  (∀ env a s, P s → P (after env a s)) →
  ∀ steps s, P s → P (session steps s).
Proof.
  intros Hstep steps s Hs.
  induction steps as [|[env a] steps IH] using rev_ind; [done|].
  rewrite session_snoc. by apply Hstep.
Qed.

Lemma executeFunction_after env func s :
  after env (ExecuteFunction func) s
  = match contract s, wallet s with
    | Some c, Some _ =>
        recorded (invocationRecord env c
                    (getInputs (functionInputs s) (ContractFunction.name func))
                    func) s
    | _, _ => s
    end.
Proof.
  unfold after; simpl.
  destruct (contract s) as [c|] eqn:Hc; [destruct (wallet s) as [w|] eqn:Hw|].
  - by rewrite (executeFunction_connected env func s c w Hc Hw).
  - by rewrite (executeFunction_idle env func s (or_intror Hw)).
  - by rewrite (executeFunction_idle env func s (or_introl Hc)).
Qed.

Lemma invocationRecord_name env c inputs func :
  functionName (invocationRecord env c inputs func) = ContractFunction.name func.
Proof.
  unfold invocationRecord. by destruct (cbind _ _) as [[[r g] h]|m].
Qed.

(** What the handlers other than the two of the invocation path leave
    alone. *)
Lemma other_actions_frame env a s :
  (∀ func, a ≠ ExecuteFunction func) → a ≠ ConnectToContract →
  functionResults (after env a s) = functionResults s
  ∧ latestFunctionResults (after env a s) = latestFunctionResults s
  ∧ contract (after env a s) = contract s
  ∧ wallet (after env a s) = wallet s
  ∧ isConnected (after env a s) = isConnected s
  ∧ loadingFunctions (after env a s) = loadingFunctions s.
Proof.
  intros Hexec Hconn. unfold after.
  destruct a; simpl; try done.
  - rewrite loadContractFiles_run. by destruct (getContracts env).
  - unfold handleContractSelection, mbind, M_bind, bind, get.
    by destruct (find _ _).
  - by destruct (Hexec func).
Qed.

Lemma connectToContract_history env s :
  (functionResults (after env ConnectToContract s) = functionResults s
   ∧ latestFunctionResults (after env ConnectToContract s)
     = latestFunctionResults s)
  ∨ (functionResults (after env ConnectToContract s) = []
     ∧ latestFunctionResults (after env ConnectToContract s) = ∅).
Proof.
  unfold after; simpl. rewrite connectToContract_run.
  destruct (validationError env s) as [message|]; simpl; [by left|].
  destruct (currentContractData s) as [[contractAddress contractAbi]|];
    [|by left].
  destruct (walletOracle env s) as [r|message]; simpl; [|by left].
  destruct (extractFunctions contractAbi) as [functions|message]; simpl;
    [|by left].
  right. by destruct (newContract env contractAddress contractAbi r.1).
Qed.

Lemma connectToContract_connected env s :
  isConnected (after env ConnectToContract s) = true →
  is_Some (contract (after env ConnectToContract s))
  ∧ is_Some (wallet (after env ConnectToContract s)).
Proof.
  unfold after; simpl. rewrite connectToContract_run.
  destruct (validationError env s) as [message|] eqn:Hcheck; simpl; [done|].
  unfold validationError in Hcheck.
  destruct (currentContractData s) as [[contractAddress contractAbi]|];
    [clear Hcheck|done].
  destruct (walletOracle env s) as [r|message]; simpl; [|done].
  destruct (extractFunctions contractAbi) as [functions|message]; simpl;
    [|done].
  destruct (newContract env contractAddress contractAbi r.1) as [c|message];
    simpl; [|done]. intros _. by split.
Qed.

End Sessions.

(** Names the frame of the action under [after] in the goal, when it is
    neither an invocation nor a connect. *)
Ltac other_frame env s H :=
  match goal with
  | |- context [after env ?a s] =>
      pose proof (other_actions_frame env a s
                    ltac:(by intros ? [=]) ltac:(by intros [=])) as H
  end.

Section SessionInvariants.

Lemma invocationRecord_wellFormed env c inputs func :
  wellFormedRecord (invocationRecord env c inputs func).
Proof.
  unfold wellFormedRecord, invocationRecord, dispatch.
  destruct (coerceInputs env inputs func) as [args|message]; simpl.
  - destruct (isReadOnly func).
    + destruct (staticCall env c _ args) as [returned|message]; simpl;
        (split; [by intros [? [=]]|]); split; by intros [? [=]].
    + destruct (sendTransaction env c _ args) as [tx|message]; simpl;
        [|split; [done|]; split; by intros [? [=]]].
      destruct (wait tx) as [[receipt|]|message]; simpl;
        (split; [try done; by intros [? [=]]|]); split; try (by intros [? [=]]);
        by eexists.
  - split; [done|]. split; by intros [? [=]].
Qed.

Lemma connected_usable_step env a s :
  (isConnected s = true → is_Some (contract s) ∧ is_Some (wallet s)) →
  isConnected (after env a s) = true →
  is_Some (contract (after env a s)) ∧ is_Some (wallet (after env a s)).
Proof.
  intros Hs.
  destruct a;
    try (other_frame env s Hframe;
         destruct Hframe as (_ & _ & -> & -> & -> & _); exact Hs).
  - apply connectToContract_connected.
  - rewrite executeFunction_after.
    destruct (contract s) as [c|] eqn:Hc, (wallet s) as [w|] eqn:Hw; simpl;
      rewrite ?Hc, ?Hw; exact Hs.
Qed.

Lemma latest_most_recent_step env a s :
  (∀ f, latestFunctionResults s !! f = mostRecent f (functionResults s)) →
  ∀ f, latestFunctionResults (after env a s) !! f
       = mostRecent f (functionResults (after env a s)).
Proof.
  intros Hs f.
  destruct a;
    try (other_frame env s Hframe; destruct Hframe as (-> & -> & _); apply Hs).
  { destruct (connectToContract_history env s) as [[-> ->]|[-> ->]];
      [apply Hs|done]. }
  rewrite executeFunction_after.
  destruct (contract s) as [c|]; [|apply Hs].
  destruct (wallet s) as [w|]; [|apply Hs].
  unfold recorded, mostRecent; simpl.
  rewrite lookup_insert.
  destruct (String.eqb_spec
              (functionName (invocationRecord env c
                 (getInputs (functionInputs s) (ContractFunction.name func)) func))
              f) as [Heq|Hne].
  - by rewrite decide_True.
  - rewrite decide_False by done. apply Hs.
Qed.


Lemma invocations_snoc steps step :
  invocations (steps ++ [step])
  = (invocations steps + if isInvocation step.2 then 1 else 0)%nat.
Proof.
  unfold invocations. rewrite List.filter_app, length_app; simpl.
  by destruct (isInvocation step.2).
Qed.

End SessionInvariants.

(** X8: in every state a session can reach from the initial one, a page
    that reports connected holds a contract instance and a wallet; so
    whenever a function's Execute button is enabled, clicking it is no
    no-op: it puts exactly one new record, under that function's name, in
    front of the history. *)
Theorem execute_button_enabled_records (steps : list (Env * Action))
    (env : Env) (func : ContractFunction.t) :
  (isConnected (session steps initialState) = true →
   is_Some (contract (session steps initialState))
   ∧ is_Some (wallet (session steps initialState)))
  ∧ (executeDisabled (session steps initialState) func = false →
     ∃ functionResult,
       functionResults
         (after env (ExecuteFunction func) (session steps initialState))
       = functionResult :: functionResults (session steps initialState)
       ∧ functionName functionResult = ContractFunction.name func).
Proof.
  assert (Hinv : isConnected (session steps initialState) = true →
                 is_Some (contract (session steps initialState))
                 ∧ is_Some (wallet (session steps initialState))).
  { apply (session_invariant
             (λ s, isConnected s = true →
                   is_Some (contract s) ∧ is_Some (wallet s))); [|done].
    intros env' a s. apply connected_usable_step. }
  split; [exact Hinv|].
  intros [Hconnected _]%orb_false_elim.
  apply negb_false_iff in Hconnected.
  destruct (Hinv Hconnected) as [[c Hc] [w Hw]].
  rewrite executeFunction_after, Hc, Hw.
  eexists. split; [reflexivity|]. apply invocationRecord_name.
Qed.

Lemma execute_button_enabled_records_witness :
  ∃ functionResult,
    functionResults (after sampleEnv (ExecuteFunction mint) connectedState)
    = functionResult :: functionResults connectedState
    ∧ functionName functionResult = "mint".
Proof.
  apply (proj2 (execute_button_enabled_records
                  [(sampleEnv, LoadContractFiles);
                   (sampleEnv, SelectContract "My Token");
                   (sampleEnv, ConnectToContract)] sampleEnv mint)).
  vm_compute. reflexivity.
Defined.

(** X9: in every state a session can reach from the initial one, the
    latest-by-function projection agrees with the history: the entry under
    a name is the first, that is the most recent, record of that name in
    the log, and there is no entry exactly when the log has no such
    record. *)
Theorem latest_is_most_recent (steps : list (Env * Action)) (f : string) :
  latestFunctionResults (session steps initialState) !! f
  = mostRecent f (functionResults (session steps initialState)).
Proof.
  revert f.
  apply (session_invariant
           (λ s, ∀ f, latestFunctionResults s !! f
                      = mostRecent f (functionResults s))); [|done].
  intros env a s. apply latest_most_recent_step.
Qed.

(** X10: every record in the history of a session started from the
    initial state is well formed: a record with an error has a null result,
    no gas figure and no transaction hash, and a record has a gas figure
    exactly when it has a transaction hash. *)
Theorem history_records_well_formed (steps : list (Env * Action)) :
  Forall wellFormedRecord (functionResults (session steps initialState)).
Proof.
  apply (session_invariant (λ s, Forall wellFormedRecord (functionResults s)));
    [|by constructor].
  intros env a s Hs.
  destruct a;
    try (other_frame env s Hframe; destruct Hframe as (-> & _); exact Hs).
  { destruct (connectToContract_history env s) as [[-> _]|[-> _]];
      [exact Hs|constructor]. }
  rewrite executeFunction_after.
  destruct (contract s) as [c|]; [|exact Hs].
  destruct (wallet s) as [w|]; [|exact Hs].
  unfold recorded; simpl. constructor; [|exact Hs].
  apply invocationRecord_wellFormed.
Qed.

(** X11: from a state that holds a contract instance and a wallet, a
    session without [connectToContract] makes the history grow by exactly
    one record per invocation, whatever else happens in between and whether
    the invocations succeed or fail. *)
Theorem history_counts_invocations (steps : list (Env * Action)) (s : State) :
  is_Some (contract s) → is_Some (wallet s) →
  Forall (λ step : Env * Action, step.2 ≠ ConnectToContract) steps →
  length (functionResults (session steps s))
  = (length (functionResults s) + invocations steps)%nat.
Proof.
  intros Hc Hw Hsteps.
  enough (is_Some (contract (session steps s))
          ∧ is_Some (wallet (session steps s))
          ∧ length (functionResults (session steps s))
            = (length (functionResults s) + invocations steps)%nat)
    as (_ & _ & H) by exact H.
  induction steps as [|[env a] steps IH] using rev_ind.
  { unfold invocations; simpl. by rewrite Nat.add_0_r. }
  apply Forall_app in Hsteps as [Hsteps Hlast%Forall_inv]. simpl in Hlast.
  destruct (IH Hsteps) as ([c Hc'] & [w Hw'] & Hlen).
  rewrite session_snoc, invocations_snoc; simpl.
  destruct a; try done;
    try (other_frame env (session steps s) Hframe;
         destruct Hframe as (-> & _ & -> & -> & _); simpl;
         rewrite Hc', Hw', Hlen, Nat.add_0_r; by repeat split).
  rewrite executeFunction_after, Hc', Hw'; simpl.
  rewrite Hc', Hw', Hlen. repeat split; [by eexists..|lia].
Qed.

Lemma history_counts_invocations_witness :
  length (functionResults
    (session [(sampleEnv, ExecuteFunction totalSupply);
              (sampleEnv, HandleInputChange "mint" "amount" "5");
              (sampleEnv, ExecuteFunction mint)] connectedState))
  = (length (functionResults connectedState) + 2)%nat.
Proof.
  apply (history_counts_invocations
           [(sampleEnv, ExecuteFunction totalSupply);
            (sampleEnv, HandleInputChange "mint" "amount" "5");
            (sampleEnv, ExecuteFunction mint)] connectedState).
  - vm_compute. by eexists.
  - vm_compute. by eexists.
  - repeat constructor; simpl; discriminate.
Defined.

(** ** Input fields *)



(** X13: a successful invocation of a function that is neither [view] nor
    [pure] puts exactly one new record in front of the history and makes it
    the latest of its function: the record has no error, carries the hash of
    the submitted transaction and the receipt's gas figure as a decimal
    string, and its result is the formatted receipt; the function is no
    longer loading. *)
Theorem executeFunction_transaction_success (env : Env)
    (func : ContractFunction.t) (s : State) (c : ContractInstance) (w : Signer)
    (args : list Value) (tx : TransactionResponse) (receipt : Receipt) :
  contract s = Some c → wallet s = Some w →
  ContractFunction.stateMutability func ≠ "view" →
  ContractFunction.stateMutability func ≠ "pure" →
  coerceInputs env (getInputs (functionInputs s) (ContractFunction.name func)) func
  = Normal args →
  sendTransaction env c (ContractFunction.name func) args = Normal tx →
  wait tx = Normal (Some receipt) →
  ∃ functionResult,
    (perform env (ExecuteFunction func) s).1 = Normal tt
    ∧ functionResults (after env (ExecuteFunction func) s)
      = functionResult :: functionResults s
    ∧ latestFunctionResults (after env (ExecuteFunction func) s)
      = <[ContractFunction.name func := functionResult]> (latestFunctionResults s)
    ∧ error functionResult = None
    ∧ transactionHash functionResult = Some (hash tx)
    ∧ gasUsed functionResult = Some (bigintToString (receipt_gasUsed receipt))
    ∧ result functionResult = formatResult (VObject (receipt_props receipt))
    ∧ ContractFunction.name func
      ∉ loadingFunctions (after env (ExecuteFunction func) s).
Proof.
  intros Hc Hw Hview Hpure Hargs Hsend Hwait.
  assert (Hro : isReadOnly func = false).
  { unfold isReadOnly. apply orb_false_intro; by apply String.eqb_neq. }
  unfold after; simpl.
  rewrite (executeFunction_connected env func s c w Hc Hw).
  unfold invocationRecord, dispatch. rewrite Hargs; simpl.
  rewrite Hro, Hsend; simpl. rewrite Hwait; simpl.
  eexists. repeat split; try reflexivity.
  intros [_ Hout]%elem_of_difference. by apply Hout, elem_of_singleton.
Qed.

Lemma executeFunction_transaction_success_witness :
  ∃ functionResult,
    functionResults
      (after (withSendTransaction
                (λ _ _ _, Normal {| hash := "0x9c1a";
                                    wait := Normal (Some
                                      {| receipt_gasUsed := 21000;
                                         receipt_props :=
                                           [("status", number 1);
                                            ("gasUsed", VBigInt 21000)] |}) |})
                sampleEnv)
         (ExecuteFunction mint) connectedState)
    = functionResult :: functionResults connectedState
    ∧ transactionHash functionResult = Some "0x9c1a"
    ∧ gasUsed functionResult = Some "21000".
Proof.
  destruct (executeFunction_transaction_success
              (withSendTransaction
                 (λ _ _ _, Normal {| hash := "0x9c1a";
                                     wait := Normal (Some
                                       {| receipt_gasUsed := 21000;
                                          receipt_props :=
                                            [("status", number 1);
                                             ("gasUsed", VBigInt 21000)] |}) |})
                 sampleEnv)
              mint connectedState sampleContract sampleSigner
              [VString ""; VBigInt 0]
              {| hash := "0x9c1a";
                 wait := Normal (Some
                   {| receipt_gasUsed := 21000;
                      receipt_props := [("status", number 1);
                                        ("gasUsed", VBigInt 21000)] |}) |}
              {| receipt_gasUsed := 21000;
                 receipt_props := [("status", number 1);
                                   ("gasUsed", VBigInt 21000)] |})
    as (functionResult & _ & Hlog & _ & _ & Hhash & Hgas & _);
    [vm_compute; reflexivity | vm_compute; reflexivity | discriminate
    | discriminate | vm_compute; reflexivity | reflexivity | reflexivity |].
  exists functionResult. exact (conj Hlog (conj Hhash Hgas)).
Defined.

(** ** Coercion of whole argument lists *)

Section Arguments.

Lemma mapC_Forall2 {A B} (f : A → Completion B) l ys :
  mapC f l = Normal ys ↔ Forall2 (λ x y, f x = Normal y) l ys.
Proof.
  revert ys. induction l as [|x l IH]; intros ys; simpl.
  - split; [intros [= <-]; constructor|by intros ->%Forall2_nil_inv_l].
  - destruct (f x) as [y|message] eqn:Hx; simpl.
    + destruct (mapC f l) as [ys'|message] eqn:Hl; simpl.
      * split.
        -- intros [= <-]. constructor; [done|by apply IH].
        -- intros (y' & ys'' & Hy & Hys & ->)%Forall2_cons_inv_l.
           apply IH in Hys. congruence.
      * split; [done|].
        intros (y' & ys'' & Hy & Hys & ->)%Forall2_cons_inv_l.
        apply IH in Hys. congruence.
    + split; [done|].
      intros (y' & ys'' & Hy & Hys & ->)%Forall2_cons_inv_l. congruence.
Qed.

Lemma mapC_Throw {A B} (f : A → Completion B) l message :
  mapC f l = Throw message → ∃ x, x ∈ l ∧ f x = Throw message.
Proof.
  induction l as [|x l IH]; simpl; [done|].
  destruct (f x) as [y|m] eqn:Hx; simpl.
  - destruct (mapC f l) as [ys|m]; simpl; [done|].
    intros [= ->]. destruct (IH eq_refl) as (x' & Hin & Hx').
    exists x'. split; [by right|done].
  - intros [= ->]. exists x. split; [by left|done].
Qed.

Lemma mapC_ext {A B} (f g : A → Completion B) l :
  Forall (λ x, f x = g x) l → mapC f l = mapC g l.
Proof. induction 1 as [|x l Hx _ IH]; simpl; [done|]. by rewrite Hx, IH. Qed.

Lemma includes_uint_int type :
  includes "uint" type = true → includes "int" type = true.
Proof.
  induction type as [|c type IH]; cbn [includes]; [done|].
  intros [Hprefix|Hrest]%orb_prop.
  - apply orb_true_iff; right. apply prefix_includes.
    change (String.prefix "uint" (String c type))
      with (if ascii_dec "u"%char c then String.prefix "int" type else false)
      in Hprefix.
    by destruct (ascii_dec "u"%char c).
  - apply orb_true_iff; right. by apply IH.
Qed.

Lemma lookupValue_ordinary (inputs : gmap string string) name :
  inheritsNothing name = true →
  lookupValue inputs name = Text (default "" (inputs !! name)).
Proof.
  intros Hname. unfold lookupValue.
  destruct (inputs !! name); [done|].
  apply negb_true_iff in Hname. by rewrite Hname.
Qed.

Lemma lookupValue_cases (inputs : gmap string string) name :
  (∃ value, lookupValue inputs name = Text value)
  ∨ (inputs !! name = None ∧ inheritsNothing name = false
     ∧ lookupValue inputs name = Inherited (objectPrototype name)).
Proof.
  unfold lookupValue, inheritsNothing.
  destruct (inputs !! name) as [value|]; [left; by exists value|].
  destruct (truthy (objectPrototype name)); [by right|left; by eexists].
Qed.

Lemma coerceInput_Throw env inputs input message :
  coerceInput env inputs input = Throw message →
  includes "int" (AbiInput.type input) = true
  ∨ (AbiInput.type input = "bool"
     ∧ inputs !! AbiInput.name input = None
     ∧ inheritsNothing (AbiInput.name input) = false).
Proof.
  unfold coerceInput.
  destruct (includes "uint" (AbiInput.type input)) eqn:Huint;
    [intros _; left; by apply includes_uint_int|].
  destruct (includes "int" (AbiInput.type input)); [by left|]. simpl.
  destruct (String.eqb_spec (AbiInput.type input) "bool") as [Hbool|_].
  - destruct (lookupValue_cases inputs (AbiInput.name input))
      as [[value ->]|(Hnone & Hname & _)]; [done|].
    intros _. by right.
  - destruct (includes "[]" (AbiInput.type input)).
    + destruct (lookupValue inputs (AbiInput.name input)); [|done].
      by destruct (JSON_parse env _).
    + by destruct (lookupValue inputs (AbiInput.name input)).
Qed.

Lemma coerceInput_value env inputs inputs' input :
  lookupValue inputs (AbiInput.name input)
  = lookupValue inputs' (AbiInput.name input) →
  coerceInput env inputs input = coerceInput env inputs' input.
Proof. intros H. unfold coerceInput. by rewrite H. Qed.

End Arguments.

(** X14: coercion is positional: it succeeds exactly when every declared
    input coerces, and then gives one argument per declared input, in
    declared order.  On a function's own record it can fail only on a
    parameter whose type mentions [int], or on a [bool] parameter the
    record holds nothing for and whose name is that of a member of
    [Object.prototype]; for a function with no such input it always
    succeeds, whatever the record holds. *)
Theorem coerceInputs_positional :
  (∀ env inputs func args,
      coerceInputs env inputs func = Normal args ↔
      Forall2 (λ input arg, coerceArgument env inputs input = Normal arg)
        (ContractFunction.inputs func) args)
  ∧ (∀ env own func message,
      coerceInputs env (Record own) func = Throw message →
      ∃ input, input ∈ ContractFunction.inputs func
               ∧ coerceInput env own input = Throw message
               ∧ (includes "int" (AbiInput.type input) = true
                  ∨ (AbiInput.type input = "bool"
                     ∧ own !! AbiInput.name input = None
                     ∧ inheritsNothing (AbiInput.name input) = false)))
  ∧ (∀ env own func,
      Forall (λ input,
                includes "int" (AbiInput.type input) = false
                ∧ (AbiInput.type input = "bool" →
                   inheritsNothing (AbiInput.name input) = true))
        (ContractFunction.inputs func) →
      ∃ args, coerceInputs env (Record own) func = Normal args
              ∧ length args = length (ContractFunction.inputs func)).
Proof.
  split; [|split].
  - intros env inputs func args. apply mapC_Forall2.
  - intros env own func message Hthrow.
    destruct (mapC_Throw _ _ _ Hthrow) as (input & Hin & Hinput).
    exists input. repeat split; [done..|].
    by apply (coerceInput_Throw env own input message).
  - intros env own func Hnoint.
    destruct (coerceInputs env (Record own) func) as [args|message] eqn:Hrun.
    + exists args. split; [done|].
      apply mapC_Forall2 in Hrun. symmetry. by eapply Forall2_length.
    + destruct (mapC_Throw _ _ _ Hrun) as (input & Hin & Hinput).
      apply coerceInput_Throw in Hinput.
      rewrite Forall_forall in Hnoint.
      destruct (Hnoint input Hin) as [Hint Hbool].
      destruct Hinput as [Hinput|(Hty & _ & Hname)]; [congruence|].
      specialize (Hbool Hty). congruence.
Qed.

Lemma coerceInputs_positional_witness :
  (∃ input, input ∈ ContractFunction.inputs mint
            ∧ coerceInput sampleEnv {["amount" := "ten"]} input
              = Throw "invalid BigNumberish string"
            ∧ (includes "int" (AbiInput.type input) = true
               ∨ (AbiInput.type input = "bool"
                  ∧ ({["amount" := "ten"]} : gmap string string)
                      !! AbiInput.name input = None
                  ∧ inheritsNothing (AbiInput.name input) = false)))
  ∧ ∃ args, coerceInputs sampleEnv (Record {["ids" := "garbage"]})
              (ContractFunction.make "setName" "function" "nonpayable"
                 [AbiInput.make "name" "string" None;
                  AbiInput.make "owners" "address[]" None;
                  AbiInput.make "valueOf" "string" None] [])
            = Normal args
            ∧ length args = 3%nat.
Proof.
  destruct coerceInputs_positional as (_ & Hthrow & Htotal).
  split.
  - apply (Hthrow sampleEnv {["amount" := "ten"]} mint). vm_compute. reflexivity.
  - apply (Htotal sampleEnv {["ids" := "garbage"]}
             (ContractFunction.make "setName" "function" "nonpayable"
                [AbiInput.make "name" "string" None;
                 AbiInput.make "owners" "address[]" None;
                 AbiInput.make "valueOf" "string" None] [])).
    repeat constructor; discriminate.
Defined.

(** X15: on a function's own record the arguments depend only on what the
    record holds for the declared inputs; a missing value counts as the
    empty string when the input's name is not that of a member of
    [Object.prototype].  Two records that agree on the declared inputs, up
    to that, coerce to the same arguments or fail with the same message;
    entries under other names have no effect. *)
Theorem coerceInputs_declared_values (env : Env)
    (own own' : gmap string string) (func : ContractFunction.t) :
  Forall (λ input,
            own !! AbiInput.name input = own' !! AbiInput.name input
            ∨ (inheritsNothing (AbiInput.name input) = true
               ∧ default "" (own !! AbiInput.name input)
                 = default "" (own' !! AbiInput.name input)))
    (ContractFunction.inputs func) →
  coerceInputs env (Record own) func = coerceInputs env (Record own') func.
Proof.
  intros Hsame. apply mapC_ext.
  eapply Forall_impl; [exact Hsame|]. intros input Hinput. simpl.
  apply coerceInput_value.
  destruct Hinput as [Hinput|[Hname Hinput]].
  - unfold lookupValue. by rewrite Hinput.
  - by rewrite !lookupValue_ordinary, Hinput.
Qed.

Lemma coerceInputs_declared_values_witness :
  coerceInputs sampleEnv (Record ∅) mint
  = coerceInputs sampleEnv (Record {["to" := ""; "note" := "unused"]}) mint.
Proof.
  apply coerceInputs_declared_values.
  repeat constructor; right; split; vm_compute; reflexivity.
Defined.

(** ** Booleans *)

Lemma lowerChar_cases c :
  (lowerChar c = "t" ↔ c = "t" ∨ c = "T")%char
  ∧ (lowerChar c = "r" ↔ c = "r" ∨ c = "R")%char
  ∧ (lowerChar c = "u" ↔ c = "u" ∨ c = "U")%char
  ∧ (lowerChar c = "e" ↔ c = "e" ∨ c = "E")%char.
Proof.
  destruct c as [[] [] [] [] [] [] [] []]; vm_compute;
    repeat split; try (intros [=]); try (intros [[=]|[=]]); auto.
Qed.

(** X16: for a [bool] parameter the coerced value is true exactly when the
    form holds one of the sixteen spellings of [true] in upper and lower
    case for it; nothing is trimmed and no other word counts.  Every other
    string the form holds, padded and empty ones included, is false, and so
    is a missing value unless the parameter's name is that of a member of
    [Object.prototype]: then coercion throws. *)
Theorem coerceInput_bool_spellings (env : Env) (inputs : gmap string string)
    (input : AbiInput.t) :
  AbiInput.type input = "bool" →
  (coerceInput env inputs input = Normal (VBool true) ↔
   ∃ c1 c2 c3 c4,
     inputs !! AbiInput.name input
     = Some (String c1 (String c2 (String c3 (String c4 EmptyString))))
     ∧ (c1 = "t" ∨ c1 = "T")%char ∧ (c2 = "r" ∨ c2 = "R")%char
     ∧ (c3 = "u" ∨ c3 = "U")%char ∧ (c4 = "e" ∨ c4 = "E")%char)
  ∧ (is_Some (inputs !! AbiInput.name input)
     ∨ inheritsNothing (AbiInput.name input) = true →
     coerceInput env inputs input ≠ Normal (VBool true) →
     coerceInput env inputs input = Normal (VBool false))
  ∧ (inputs !! AbiInput.name input = None →
     inheritsNothing (AbiInput.name input) = false →
     coerceInput env inputs input = Throw "value.toLowerCase is not a function").
Proof.
  intros Hty. rewrite (coerceInput_bool env inputs input Hty).
  split; [|split].
  - split.
    + unfold lookupValue.
      destruct (inputs !! AbiInput.name input) as [value|];
        [|by destruct (truthy _)].
      intros [= Heq]. apply String.eqb_eq in Heq.
      destruct value as [|c1 [|c2 [|c3 [|c4 [|c5 value]]]]]; try done.
      simpl in Heq. injection Heq as H1 H2 H3 H4.
      exists c1, c2, c3, c4. split; [done|].
      repeat split.
      * by apply (lowerChar_cases c1).
      * by apply (lowerChar_cases c2).
      * by apply (lowerChar_cases c3).
      * by apply (lowerChar_cases c4).
    + intros (c1 & c2 & c3 & c4 & Hvalue & H1 & H2 & H3 & H4).
      rewrite (lookupValue_own _ _ _ Hvalue).
      apply (lowerChar_cases c1) in H1. apply (lowerChar_cases c2) in H2.
      apply (lowerChar_cases c3) in H3. apply (lowerChar_cases c4) in H4.
      unfold toLowerCase; simpl. by rewrite H1, H2, H3, H4.
  - intros [[value Hvalue]|Hname].
    + rewrite (lookupValue_own _ _ _ Hvalue).
      by destruct (String.eqb _ "true").
    + rewrite (lookupValue_ordinary _ _ Hname).
      by destruct (String.eqb _ "true").
  - intros Hnone Hname. by rewrite (lookupValue_inherited _ _ Hnone Hname).
Qed.

Lemma coerceInput_bool_spellings_witness :
  coerceInput sampleEnv {["flag" := "tRuE"]} (AbiInput.make "flag" "bool" None)
  = Normal (VBool true)
  ∧ coerceInput sampleEnv {["flag" := " true"]} (AbiInput.make "flag" "bool" None)
    = Normal (VBool false)
  ∧ coerceInput sampleEnv {["flag" := "true"]}
      (AbiInput.make "toString" "bool" None)
    = Throw "value.toLowerCase is not a function".
Proof.
  destruct (coerceInput_bool_spellings sampleEnv {["flag" := "tRuE"]}
              (AbiInput.make "flag" "bool" None) eq_refl) as [Hiff _].
  destruct (coerceInput_bool_spellings sampleEnv {["flag" := " true"]}
              (AbiInput.make "flag" "bool" None) eq_refl)
    as (Hiff' & Hfalse & _).
  destruct (coerceInput_bool_spellings sampleEnv {["flag" := "true"]}
              (AbiInput.make "toString" "bool" None) eq_refl)
    as (_ & _ & Hthrow).
  split; [|split].
  - apply Hiff. exists "t"%char, "R"%char, "u"%char, "E"%char.
    repeat split; auto.
  - apply Hfalse; [right; reflexivity|]. intros Htrue. apply Hiff' in Htrue.
    destruct Htrue as (c1 & c2 & c3 & c4 & [=] & _).
  - apply Hthrow; reflexivity.
Defined.

(** ** Formatting, again *)

Lemma formatItem_not_bigint item : isBigInt (formatItem item) = false.
Proof. by destruct item. Qed.

Lemma formatItem_idempotent item : formatItem (formatItem item) = formatItem item.
Proof. by destruct item. Qed.

(** X17: a formatted result is never a bigint and has no bigint among its
    immediate elements or property values, and formatting it again changes
    nothing. *)
Theorem formatResult_idempotent (v : Value) :
  formatResult (formatResult v) = formatResult v
  ∧ isBigInt (formatResult v) = false
  ∧ (∀ items, formatResult v = VArray items →
              Forall (λ item, isBigInt item = false) items)
  ∧ (∀ props, formatResult v = VObject props →
              Forall (λ kv : string * Value, isBigInt kv.2 = false) props).
Proof.
  destruct v as [ | |b|x|n|s|items|props|name]; simpl;
    try (repeat split; [done..|by intros ? [=]|by intros ? [=]]).
  - repeat split; [|by intros ? [=]; subst; apply Forall_map,
                       Forall_forall; intros; apply formatItem_not_bigint
                   |by intros ? [=]].
    f_equal. rewrite map_map. apply map_ext. apply formatItem_idempotent.
  - repeat split; [|by intros ? [=]|].
    + f_equal. rewrite map_map. apply map_ext.
      intros [key value]. by rewrite formatItem_idempotent.
    + intros ? [= <-]. apply Forall_map, Forall_forall.
      intros [key value] _. apply formatItem_not_bigint.
Qed.

(** ** Badges, icons and buttons *)

(** X18: the markup and the dispatcher classify a function the same way:
    it gets the eye icon and the blue badge exactly when its mutability is
    [view] or [pure], and exactly then its invocation is a read call that
    never consults the transaction path; with any other mutability, absent
    or misspelt ones included, the invocation submits a transaction and
    never consults the read path. *)
Theorem icon_matches_dispatch (func : ContractFunction.t) :
  (getFunctionIcon (ContractFunction.stateMutability func) = Eye ↔
   isReadOnly func = true)
  ∧ (getFunctionColor (ContractFunction.stateMutability func)
     = "bg-blue-100 text-blue-800 border-blue-200" ↔ isReadOnly func = true)
  ∧ (getFunctionIcon (ContractFunction.stateMutability func) = DollarSign ↔
     ContractFunction.stateMutability func = "payable")
  ∧ (∀ env c args,
      getFunctionIcon (ContractFunction.stateMutability func) = Eye →
      dispatch env c func args
      = cbind (staticCall env c (ContractFunction.name func) args)
          (λ returned, Normal (returned, None, None)))
  ∧ (∀ env env' c args,
      getFunctionIcon (ContractFunction.stateMutability func) ≠ Eye →
      sendTransaction env = sendTransaction env' →
      dispatch env c func args = dispatch env' c func args).
Proof.
  assert (Hicon : getFunctionIcon (ContractFunction.stateMutability func) = Eye
                  ↔ isReadOnly func = true).
  { unfold getFunctionIcon, isReadOnly. destruct (_ || _); [done|].
    by destruct (String.eqb _ "payable"). }
  split; [exact Hicon|]. split; [|split; [|split]].
  - unfold getFunctionColor, isReadOnly. destruct (_ || _); [done|].
    by destruct (String.eqb _ "payable").
  - unfold getFunctionIcon.
    destruct (String.eqb_spec (ContractFunction.stateMutability func) "payable")
      as [Hpay|Hpay].
    + rewrite Hpay. by vm_compute.
    + destruct (_ || _); split; done.
  - intros env c args Heye%Hicon. unfold dispatch. by rewrite Heye.
  - intros env env' c args Hnot Hsend. unfold dispatch.
    destruct (isReadOnly func) eqn:Hro; [by destruct Hnot; apply Hicon|].
    by rewrite Hsend.
Qed.

Lemma icon_matches_dispatch_witness :
  dispatch sampleEnv sampleContract totalSupply []
  = Normal (VBigInt 123456789012345678901234567890, None, None).
Proof.
  rewrite (proj1 (proj2 (proj2 (proj2 (icon_matches_dispatch totalSupply))))
             sampleEnv sampleContract [] eq_refl).
  reflexivity.
Defined.

(** X19: toggling a function card flips the membership of that one name
    in the set of expanded functions and of no other, touches nothing else
    of the invocation state, and toggling twice restores the set. *)
Theorem toggleFunctionExpanded_flips (env : Env) (s : State) (f : string) :
  (f ∈ expandedFunctions (after env (ToggleFunctionExpanded f) s)
   ↔ f ∉ expandedFunctions s)
  ∧ (∀ f', f' ≠ f →
       (f' ∈ expandedFunctions (after env (ToggleFunctionExpanded f) s)
        ↔ f' ∈ expandedFunctions s))
  ∧ expandedFunctions
      (after env (ToggleFunctionExpanded f)
         (after env (ToggleFunctionExpanded f) s))
    = expandedFunctions s
  ∧ functionResults (after env (ToggleFunctionExpanded f) s) = functionResults s
  ∧ functionInputs (after env (ToggleFunctionExpanded f) s) = functionInputs s
  ∧ loadingFunctions (after env (ToggleFunctionExpanded f) s)
    = loadingFunctions s.
Proof.
  assert (Hflip : ∀ f' (E : gset string),
    f' ∈ (if bool_decide (f ∈ E) then E ∖ {[f]} else E ∪ {[f]})
    ↔ (if decide (f' = f) then f' ∉ E else f' ∈ E)).
  { intros f' E. case_bool_decide as Hin; case_decide as Heq; subst;
      rewrite ?elem_of_difference, ?elem_of_union, ?elem_of_singleton.
    - split; [intros [_ Hne]; by destruct Hne|intros Hout; by destruct Hout].
    - split; [by intros [? _]|by split].
    - split; [done|by right].
    - split; [by intros [?|?]|by left]. }
  unfold after; simpl.
  split; [|split; [|split; [|done]]].
  - rewrite Hflip. by rewrite decide_True.
  - intros f' Hne. rewrite Hflip. by rewrite decide_False.
  - apply set_eq. intros f'. rewrite Hflip.
    case_decide as Heq.
    + subst. rewrite Hflip, decide_True by done.
      split; [intros Hnn; by destruct (decide (f ∈ expandedFunctions s))|].
      intros Hin Hout. by apply Hout.
    + rewrite Hflip. by rewrite decide_False.
Qed.

Lemma toggleFunctionExpanded_flips_witness :
  "mint" ∈ expandedFunctions
             (after sampleEnv (ToggleFunctionExpanded "burn") connectedState)
  ↔ "mint" ∈ expandedFunctions connectedState.
Proof.
  apply (proj1 (proj2 (toggleFunctionExpanded_flips sampleEnv connectedState
                         "burn"))).
  discriminate.
Defined.

(** ** Display names *)

Section DisplayNames.

Lemma upperChar_facts c :
  isWordChar (upperChar c) = isWordChar c
  ∧ (isLower c = true → isLower (upperChar c) = false)
  ∧ (upperChar c = "-"%char → c = "-"%char).
Proof.
  destruct c as [[] [] [] [] [] [] [] []]; vm_compute;
    repeat split; try done; by intros [=].
Qed.

Lemma includes_hyphen_cons c s :
  includes "-" (String c s) = Ascii.eqb c "-" || includes "-" s.
Proof.
  cbn [includes]. f_equal.
  change (String.prefix "-" (String c s))
    with (if ascii_dec "-"%char c then String.prefix "" s else false).
  destruct (ascii_dec "-"%char c) as [<-|Hne]; [by destruct s|].
  symmetry. apply Ascii.eqb_neq. congruence.
Qed.

Lemma hyphens_replaced s :
  includes "-" (mapChars (λ c, if Ascii.eqb c "-" then " "%char else c) s) = false.
Proof.
  induction s as [|c s IH]; [done|].
  cbn [mapChars]. rewrite includes_hyphen_cons, IH.
  destruct (Ascii.eqb c "-") eqn:Hc; [done|]. by rewrite Hc.
Qed.

Lemma capitalizeFrom_hyphen_free prevWord s :
  includes "-" s = false → includes "-" (capitalizeFrom prevWord s) = false.
Proof.
  revert prevWord. induction s as [|c s IH]; intros prevWord; [done|].
  rewrite includes_hyphen_cons. intros [Hc Hs]%orb_false_elim.
  cbn [capitalizeFrom]. rewrite includes_hyphen_cons, (IH _ Hs), orb_false_r.
  destruct (isWordChar c && negb prevWord); [|done].
  apply Ascii.eqb_neq. intros Hup%upperChar_facts.
  by apply Ascii.eqb_neq in Hc.
Qed.

Lemma capitalizeFrom_titleCased prevWord s :
  titleCased prevWord (capitalizeFrom prevWord s) = true.
Proof.
  revert prevWord. induction s as [|c s IH]; intros prevWord; [done|].
  cbn [capitalizeFrom titleCased].
  destruct (upperChar_facts c) as (Hword & Hlower & _).
  destruct (isWordChar c && negb prevWord) eqn:Hstart.
  - rewrite Hword, Hstart, IH.
    destruct (isLower c) eqn:Hc; [by rewrite (Hlower eq_refl)|].
    unfold upperChar. by rewrite Hc, Hc.
  - by rewrite Hstart, IH.
Qed.

End DisplayNames.

(** X20: the display name derived from a file name contains no hyphen,
    and no word of it starts with an ASCII lower-case letter. *)
Theorem displayName_title_case (fileName : string) :
  includes "-" (displayName fileName) = false
  ∧ titleCased false (displayName fileName) = true.
Proof.
  unfold displayName. split.
  - apply capitalizeFrom_hyphen_free, hyphens_replaced.
  - apply capitalizeFrom_titleCased.
Qed.

(** ** Contract selection *)

Section Selection.

Lemma handleContractSelection_run contractName s :
  handleContractSelection contractName s
  = (Normal tt,
     match List.find (λ c, String.eqb (name c) contractName) (contractFiles s) with
     | Some selectedContractFile =>
         setCurrentContractData
           (λ _, Some (address selectedContractFile, abi selectedContractFile))
           (setSelectedContract (λ _, contractName) s)
     | None => s
     end).
Proof.
  unfold handleContractSelection, mbind, M_bind, bind, get.
  by destruct (find _ _).
Qed.

Lemma find_first_match (contractName : string) before c rest :
  name c = contractName →
  Forall (λ c', name c' ≠ contractName) before →
  List.find (λ c', String.eqb (name c') contractName) (before ++ c :: rest)%list
  = Some c.
Proof.
  intros Hc. induction 1 as [|c' before Hc' _ IH]; simpl.
  - by rewrite (proj2 (String.eqb_eq _ _) Hc).
  - by rewrite (proj2 (String.eqb_neq _ _) Hc').
Qed.

Lemma find_no_match (contractName : string) files :
  Forall (λ c, name c ≠ contractName) files →
  List.find (λ c, String.eqb (name c) contractName) files = None.
Proof.
  induction 1 as [|c files Hc _ IH]; simpl; [done|].
  by rewrite (proj2 (String.eqb_neq _ _) Hc).
Qed.

End Selection.

(** X21: selecting a name picks the first catalog entry of that name, so
    an entry behind a namesake can never be selected, and a name the
    catalog does not hold changes nothing.  Selecting never touches the
    connection, the function list, the history or the form: the page stays
    connected to the previous contract, and an invocation after the new
    selection records what it would have recorded before it. *)
Theorem handleContractSelection_first_match :
  (∀ env s contractName,
      Forall (λ c, name c ≠ contractName) (contractFiles s) →
      after env (SelectContract contractName) s = s)
  ∧ (∀ env s before c rest,
      contractFiles s = (before ++ c :: rest)%list →
      Forall (λ c', name c' ≠ name c) before →
      selectedContract (after env (SelectContract (name c)) s) = name c
      ∧ currentContractData (after env (SelectContract (name c)) s)
        = Some (address c, abi c))
  ∧ (∀ env s contractName,
      contract (after env (SelectContract contractName) s) = contract s
      ∧ wallet (after env (SelectContract contractName) s) = wallet s
      ∧ isConnected (after env (SelectContract contractName) s) = isConnected s
      ∧ parsedAbi (after env (SelectContract contractName) s) = parsedAbi s
      ∧ functionResults (after env (SelectContract contractName) s)
        = functionResults s
      ∧ functionInputs (after env (SelectContract contractName) s)
        = functionInputs s)
  ∧ (∀ env env' s contractName func,
      functionResults
        (after env' (ExecuteFunction func)
           (after env (SelectContract contractName) s))
      = functionResults (after env' (ExecuteFunction func) s)).
Proof.
  assert (Hframe : ∀ env s contractName,
      contract (after env (SelectContract contractName) s) = contract s
      ∧ wallet (after env (SelectContract contractName) s) = wallet s
      ∧ isConnected (after env (SelectContract contractName) s) = isConnected s
      ∧ parsedAbi (after env (SelectContract contractName) s) = parsedAbi s
      ∧ functionResults (after env (SelectContract contractName) s)
        = functionResults s
      ∧ functionInputs (after env (SelectContract contractName) s)
        = functionInputs s).
  { intros env s contractName. unfold after; simpl.
    rewrite handleContractSelection_run. by destruct (find _ _). }
  split; [|split; [|split; [exact Hframe|]]].
  - intros env s contractName Hnone. unfold after; simpl.
    by rewrite handleContractSelection_run, (find_no_match _ _ Hnone).
  - intros env s before c rest Hfiles Hbefore. unfold after; simpl.
    rewrite handleContractSelection_run, Hfiles.
    by rewrite (find_first_match (name c) before c rest eq_refl Hbefore).
  - intros env env' s contractName func.
    destruct (Hframe env s contractName) as (Hc & Hw & _ & _ & Hlog & Hinputs).
    rewrite !executeFunction_after, Hc, Hw, Hinputs.
    destruct (contract s), (wallet s); simpl; by rewrite ?Hlog.
Qed.

Lemma handleContractSelection_first_match_witness :
  after sampleEnv (SelectContract "Unknown") connectedState = connectedState
  ∧ currentContractData
      (after sampleEnv (SelectContract "Odd Abi") connectedState)
    = Some (tokenAddress, VString "see the docs").
Proof.
  destruct handleContractSelection_first_match as (Hnone & Hfirst & _).
  split.
  - apply Hnone. vm_compute. repeat constructor; discriminate.
  - apply (Hfirst sampleEnv connectedState
             [{| name := "My Token"; address := tokenAddress; abi := tokenAbi |}]
             {| name := "Odd Abi"; address := tokenAddress;
                abi := VString "see the docs" |} []).
    + vm_compute. reflexivity.
    + repeat constructor; simpl; discriminate.
Defined.

(** X22: the function count shown for the selected contract is the number
    of function cards a successful connect produces; and for a selected
    descriptor whose [abi] is not an array, which the loader accepts, the
    count cannot be rendered: the filter in the markup throws. *)
Theorem functionCount_matches_cards :
  (∀ env s n,
      functionCount s = Normal (Some n) →
      isConnected (after env ConnectToContract s) = true →
      length (parsedAbi (after env ConnectToContract s)) = n)
  ∧ (∀ s contractAddress contractAbi,
      currentContractData s = Some (contractAddress, contractAbi) →
      isArray contractAbi = false →
      functionCount s = Throw "currentContractData.abi.filter is not a function").
Proof.
  split.
  - intros env s n Hcount. unfold after; simpl.
    rewrite connectToContract_run. unfold functionCount in Hcount.
    destruct (validationError env s) as [message|]; simpl; [done|].
    destruct (currentContractData s) as [[contractAddress contractAbi]|];
      [|done].
    destruct (walletOracle env s) as [r|message]; simpl; [|done].
    destruct (extractFunctions contractAbi) as [functions|message]; simpl in *;
      [|done].
    destruct (newContract env contractAddress contractAbi r.1) as [c|message];
      simpl; [|done]. intros _. congruence.
  - intros s contractAddress contractAbi Hdata Harray.
    unfold functionCount. rewrite Hdata. by destruct contractAbi.
Qed.

Lemma functionCount_matches_cards_witness :
  length (parsedAbi (after sampleEnv ConnectToContract tokenSelection)) = 2%nat
  ∧ functionCount oddSelection
    = Throw "currentContractData.abi.filter is not a function".
Proof.
  destruct functionCount_matches_cards as (Hcards & Hthrow).
  split.
  - apply Hcards; vm_compute; reflexivity.
  - apply (Hthrow oddSelection tokenAddress (VString "see the docs"));
      vm_compute; reflexivity.
Defined.

(** ** Catalog entries in sessions *)

Section CatalogInvariant.

Lemma accepted_wellFormed env fileName file :
  accepted env fileName = Some file → wellFormedEntry file.
Proof.
  unfold accepted. destruct (loadFile env fileName) as [file'| |] eqn:Hload;
    try done. intros [= <-].
  apply loadFile_accepted in Hload
    as (contractData & fileAddress & fileAbi & _ & _ & Ha & _ & Hb & ->).
  repeat split; simpl; [done..| |].
  - apply capitalizeFrom_hyphen_free, hyphens_replaced.
  - apply capitalizeFrom_titleCased.
Qed.

Lemma catalog_frame env a s :
  (a ≠ LoadContractFiles → contractFiles (after env a s) = contractFiles s)
  ∧ ((∀ contractName, a ≠ SelectContract contractName) →
     currentContractData (after env a s) = currentContractData s).
Proof.
  destruct a; (split; [intros Hload|intros Hselect]); try done.
  - unfold after; simpl. rewrite loadContractFiles_run.
    by destruct (getContracts env).
  - unfold after; simpl. rewrite handleContractSelection_run.
    by destruct (find _ _).
  - by destruct (Hselect contractName).
  - unfold after; simpl. rewrite connectToContract_run.
    destruct (validationError env s); [done|].
    destruct (currentContractData s) as [[contractAddress contractAbi]|];
      [|done].
    destruct (walletOracle env s) as [r|message]; [|done].
    destruct (extractFunctions contractAbi) as [functions|message]; [|done].
    by destruct (newContract env contractAddress contractAbi r.1).
  - unfold after; simpl. rewrite connectToContract_run.
    destruct (validationError env s); [done|].
    destruct (currentContractData s) as [[contractAddress contractAbi]|] eqn:Hd;
      [|done].
    destruct (walletOracle env s) as [r|message]; [|done].
    destruct (extractFunctions contractAbi) as [functions|message]; [|done].
    by destruct (newContract env contractAddress contractAbi r.1).
  - rewrite executeFunction_after. by destruct (contract s), (wallet s).
  - rewrite executeFunction_after. by destruct (contract s), (wallet s).
Qed.

Lemma catalog_wellFormed_step env a s :
  (Forall wellFormedEntry (contractFiles s)
   ∧ ∀ contractAddress contractAbi,
       currentContractData s = Some (contractAddress, contractAbi) →
       truthy contractAddress = true ∧ truthy contractAbi = true) →
  Forall wellFormedEntry (contractFiles (after env a s))
  ∧ ∀ contractAddress contractAbi,
      currentContractData (after env a s) = Some (contractAddress, contractAbi) →
      truthy contractAddress = true ∧ truthy contractAbi = true.
Proof.
  intros [Hfiles Hdata].
  destruct (catalog_frame env a s) as [Hkeep Hkeep'].
  destruct a;
    try (rewrite Hkeep, Hkeep' by done; by split).
  - rewrite Hkeep' by done. split; [|done].
    unfold after; simpl. rewrite loadContractFiles_run.
    destruct (getContracts env) as [fileNames|message]; simpl; [|done].
    apply Forall_forall. intros file (fileName & _ & Hfile)%list_elem_of_omap.
    by apply (accepted_wellFormed env fileName).
  - rewrite Hkeep by done. split; [done|].
    unfold after; simpl. rewrite handleContractSelection_run.
    destruct (find _ _) as [c|] eqn:Hfind; simpl; [|done].
    intros contractAddress contractAbi [= <- <-].
    apply find_some in Hfind as [Hin _].
    rewrite Forall_forall in Hfiles.
    apply list_elem_of_In in Hin. by destruct (Hfiles c Hin) as (? & ? & _).
Qed.

End CatalogInvariant.

(** X23: in every state a session can reach from the initial one, every
    catalog entry has a present address and ABI under a hyphen-free,
    title-cased name, and the selected contract, if any, has a present
    address and ABI: the connect handler never hands a missing address or
    ABI to the contract constructor. *)
Theorem catalog_entries_well_formed (steps : list (Env * Action)) :
  Forall wellFormedEntry (contractFiles (session steps initialState))
  ∧ ∀ contractAddress contractAbi,
      currentContractData (session steps initialState)
      = Some (contractAddress, contractAbi) →
      truthy contractAddress = true ∧ truthy contractAbi = true.
Proof.
  apply (session_invariant
           (λ s, Forall wellFormedEntry (contractFiles s)
                 ∧ ∀ contractAddress contractAbi,
                     currentContractData s = Some (contractAddress, contractAbi) →
                     truthy contractAddress = true ∧ truthy contractAbi = true)).
  - intros env a s. apply catalog_wellFormed_step.
  - split; [constructor|done].
Qed.

Lemma catalog_entries_well_formed_witness :
  truthy tokenAddress = true ∧ truthy (VString "see the docs") = true.
Proof.
  apply (proj2 (catalog_entries_well_formed
                  [(sampleEnv, LoadContractFiles);
                   (sampleEnv, SelectContract "Odd Abi")])).
  vm_compute. reflexivity.
Defined.

Section Extension.

Lemma prefix_cons a p b s :
  String.prefix (String a p) (String b s) = Ascii.eqb a b && String.prefix p s.
Proof.
  change (String.prefix (String a p) (String b s))
    with (if ascii_dec a b then String.prefix p s else false).
  destruct (ascii_dec a b) as [->|Hne].
  - by rewrite Ascii.eqb_refl.
  - by rewrite (proj2 (Ascii.eqb_neq a b) Hne).
Qed.

Lemma append_cons c s t : String c s +:+ t = String c (s +:+ t).
Proof. reflexivity. Qed.

Lemma json_no_overlap u :
  String.prefix ".json" (u +:+ ".json") = true →
  u = "" ∨ String.prefix ".json" u = true.
Proof.
  destruct u as [|c1 [|c2 [|c3 [|c4 [|c5 u]]]]]; [by left|..]; intros H; right;
    rewrite ?append_cons in H;
    change ("" +:+ ".json") with ".json" in H;
    rewrite !prefix_cons in *;
    repeat (apply andb_prop in H as [?%Ascii.eqb_eq H]); simplify_eq.
  rewrite !Ascii.eqb_refl. by destruct u.
Qed.

Lemma replaceFirst_cons pat rep c s :
  replaceFirst pat rep (String c s)
  = if String.prefix pat (String c s)
    then rep +:+ String.substring (String.length pat)
                   (String.length (String c s) - String.length pat) (String c s)
    else String c (replaceFirst pat rep s).
Proof. reflexivity. Qed.

Lemma replaceFirst_extension base :
  includes ".json" base = false →
  replaceFirst ".json" "" (base +:+ ".json") = base.
Proof.
  induction base as [|c base IH]; [done|].
  cbn [includes]. intros [Hhere Hrest]%orb_false_elim.
  rewrite append_cons, replaceFirst_cons.
  destruct (String.prefix ".json" (String c (base +:+ ".json"))) eqn:Hprefix.
  - rewrite <- append_cons in Hprefix.
    destruct (json_no_overlap (String c base) Hprefix) as [[=]|Hp].
    congruence.
  - by rewrite (IH Hrest).
Qed.

End Extension.

(** X24: for a descriptor file named [base.json] whose base does not
    itself contain [.json], the display name is the base with every hyphen
    turned into a space and every word capitalized: the extension is what
    gets removed. *)
Theorem displayName_strips_extension (base : string) :
  includes ".json" base = false →
  displayName (base +:+ ".json")
  = capitalizeFrom false
      (mapChars (λ c, if Ascii.eqb c "-" then " "%char else c) base).
Proof.
  intros Hbase. unfold displayName. by rewrite replaceFirst_extension.
Qed.

Lemma displayName_strips_extension_witness :
  displayName ("erc20-token-v2" +:+ ".json") = "Erc20 Token V2".
Proof.
  rewrite (displayName_strips_extension "erc20-token-v2" eq_refl).
  reflexivity.
Defined.
